(** * warg.kw_passing: keyword-passing contracts on signatures

    A shallow embedding of [src/warg/kw_passing.py]: the signature merge
    [eval_sig_kw_params] and the two decorators built on it,
    [passes_kws_to] and [super_init_pass_on_kws].

    The Python program works on live runtime metadata: it reads the
    signature of callables through [inspect.signature], mutates
    [Parameter] objects in place, logs through [logging.warning] and
    assigns the [__signature__] attribute of function objects.  The
    embedding keeps these effects explicit in a small monad [Py] over a
    [world] made of the function objects, the classes and the log. *)

From stdpp Require Import base decidable option list strings pretty gmap.

Open Scope string_scope.
Open Scope list_scope.
Open Scope nat_scope.

(** ** The pieces of the standard library module [inspect] the program uses *)

(** [inspect._ParameterKind]: an [IntEnum], in this order. *)
Inductive ParameterKind :=
  | POSITIONAL_ONLY
  | POSITIONAL_OR_KEYWORD
  | VAR_POSITIONAL
  | KEYWORD_ONLY
  | VAR_KEYWORD.

Global Instance ParameterKind_eq_dec : EqDecision ParameterKind.
Proof. solve_decision. Defined.

Definition kind_value (k : ParameterKind) : nat :=
  match k with
  | POSITIONAL_ONLY => 0
  | POSITIONAL_OR_KEYWORD => 1
  | VAR_POSITIONAL => 2
  | KEYWORD_ONLY => 3
  | VAR_KEYWORD => 4
  end.

(** Python values that occur as parameter defaults. *)
Inductive pyvalue :=
  | PyNone
  | PyInt (z : Z)
  | PyStr (s : string).

Global Instance pyvalue_eq_dec : EqDecision pyvalue.
Proof. solve_decision. Defined.

(** [inspect.Parameter] (a reserved word of Rocq, hence [Param]).  A
    [param_default] of [None] is the sentinel [inspect.Parameter.empty]: the
    parameter has no default. *)
Record Param := mkParam {
  param_name : string;
  param_kind : ParameterKind;
  param_default : option pyvalue
}.

Global Instance Param_eq_dec : EqDecision Param.
Proof. solve_decision. Defined.

(** [inspect.Signature]: the ordered parameters and the return annotation. *)
Record Signature := mkSignature {
  parameters : list Param;
  return_annotation : option string
}.

Global Instance Signature_eq_dec : EqDecision Signature.
Proof. solve_decision. Defined.

(** ** Insertion-ordered dictionaries

    A Python [dict] keeps its keys in insertion order; assigning to a key
    that is present replaces the value where the key stands, assigning to
    an absent key appends it. *)
Module Dict.
Section dict.
Context {K V : Type} `{EqDecision K}.

Definition t := list (K * V).

Definition keys (d : t) : list K := d.*1.
Definition values (d : t) : list V := d.*2.

(** [k in d] *)
Definition contains (k : K) (d : t) : bool := bool_decide (k ∈ keys d).

(** [d[k]] when the key is present *)
Fixpoint get (k : K) (d : t) : option V :=
  match d with
  | [] => None
  | (k', v) :: d' => if decide (k' = k) then Some v else get k d'
  end.

(** the mapping left by [d.pop(k)] *)
Fixpoint remove (k : K) (d : t) : t :=
  match d with
  | [] => []
  | (k', v) :: d' => if decide (k' = k) then d' else (k', v) :: remove k d'
  end.

(** [d[k] = v] *)
Fixpoint setitem (k : K) (v : V) (d : t) : t :=
  match d with
  | [] => [(k, v)]
  | (k', v') :: d' =>
      if decide (k' = k) then (k, v) :: d' else (k', v') :: setitem k v d'
  end.

(** [d.update(other)] *)
Definition update (d other : t) : t :=
  fold_left (λ acc kv, setitem kv.1 kv.2 acc) other d.
End dict.
Global Arguments t : clear implicits.
End Dict.

(** ** Objects, world and effects *)

Definition loc := nat.

(** The callables the decorators are applied to or receive.  A function or
    builtin lives in the world at a location; [object.__init__], which every
    class without an initializer of its own resolves to, is a slot wrapper.
    Other callables Python has (a class called as a constructor, a
    [functools.partial], an instance with [__call__]) are not part of this
    model: no statement below speaks of them. *)
Inductive callable :=
  | FuncRef (l : loc)
  | object___init__.

Global Instance callable_eq_dec : EqDecision callable.
Proof. solve_decision. Defined.

(** A Python function object: [__code__] stands for everything the
    interpreter uses to bind arguments and run the body (the declared
    parameters and the body's identity), [__signature__] is the optional
    attribute [inspect.signature] prefers over the declared parameters. *)
Record code := mkCode {
  co_declared : Signature;
  co_body : nat
}.

Global Instance code_eq_dec : EqDecision code.
Proof. solve_decision. Defined.

Record FunctionObj := mkFunction {
  __name__ : string;
  __code__ : code;
  __signature__ : option Signature
}.

Global Instance FunctionObj_eq_dec : EqDecision FunctionObj.
Proof. solve_decision. Defined.

Definition set___signature__ (s : Signature) (f : FunctionObj) : FunctionObj :=
  {| __name__ := __name__ f; __code__ := __code__ f; __signature__ := Some s |}.

(** What a location of the world holds: a function defined in Python, or a
    native function ([types.BuiltinFunctionType], such as [len]) with the
    signature [inspect] parses from its [__text_signature__], if it has one. *)
Inductive FuncObject :=
  | Function (f : FunctionObj)
  | BuiltinFunction (text_signature : option Signature).

Global Instance FuncObject_eq_dec : EqDecision FuncObject.
Proof. solve_decision. Defined.

(** A class: its own [__init__], if its body defines one, and its ancestors
    in linearised order; [__mro__] is the class followed by them. *)
Record ClassObj := mkClass {
  cls_name : string;
  cls_own_init : option loc;
  cls_ancestors : list loc
}.

Global Instance ClassObj_eq_dec : EqDecision ClassObj.
Proof. solve_decision. Defined.

(** One record of the logging sink: the receiver the warning is about. *)
Inductive log_record :=
  | Warning (receiver_func : callable) (receiver_params : list Param).

Record world := mkWorld {
  functions : gmap loc FuncObject;
  classes : gmap loc ClassObj;
  log : list log_record
}.

Inductive exn :=
  | AssertionError
  | AttributeError
  | TypeError
  | ValueError.

Global Instance exn_eq_dec : EqDecision exn.
Proof. solve_decision. Defined.

Inductive outcome (A : Type) :=
  | Returned (a : A)
  | Raised (e : exn).
Global Arguments Returned {A} a.
Global Arguments Raised {A} e.

(** Computations that read and write the world and may raise. *)
Definition Py (A : Type) : Type := world → outcome A * world.

Global Instance Py_ret : MRet Py := λ A a w, (Returned a, w).
Global Instance Py_bind : MBind Py := λ A B k m w,
  match m w with
  | (Returned a, w') => k a w'
  | (Raised e, w') => (Raised e, w')
  end.

Definition raise {A} (e : exn) : Py A := λ w, (Raised e, w).
Definition lift_outcome {A} (o : outcome A) : Py A := λ w, (o, w).
Definition get_world : Py world := λ w, (Returned w, w).
Definition set_functions (fs : gmap loc FuncObject) : Py unit := λ w,
  (Returned tt, {| functions := fs; classes := classes w; log := log w |}).

(** [logging.warning(...)] *)
Definition warning (r : log_record) : Py unit := λ w,
  (Returned tt,
   {| functions := functions w; classes := classes w; log := log w ++ [r] |}).

(** [assert cond] *)
Definition assert (cond : bool) : Py unit :=
  if cond then mret tt else raise AssertionError.

(** ** [inspect.signature] and the [Signature] constructor *)

Definition object___init___signature : Signature :=
  {| parameters :=
       [ mkParam "self" POSITIONAL_ONLY None;
         mkParam "args" VAR_POSITIONAL None;
         mkParam "kwargs" VAR_KEYWORD None ];
     return_annotation := None |}.

(** [inspect.signature(obj)]: a stored [__signature__] is returned as it is
    (the very object, so that mutations of its parameters are seen by later
    calls); otherwise the signature is read off the code of a function or
    parsed from the text signature of a builtin, which fails with
    [ValueError] when there is none.  A location that holds no callable
    gives [TypeError]. *)
Definition inspect_signature (obj : callable) : Py Signature := λ w,
  match obj with
  | object___init__ => (Returned object___init___signature, w)
  | FuncRef l =>
      match functions w !! l with
      | Some (Function f) =>
          match __signature__ f with
          | Some s => (Returned s, w)
          | None => (Returned (co_declared (__code__ f)), w)
          end
      | Some (BuiltinFunction (Some s)) => (Returned s, w)
      | Some (BuiltinFunction None) => (Raised ValueError, w)
      | None => (Raised TypeError, w)
      end
  end.

(** [obj.__signature__ = sig]: only function objects take attributes. *)
Definition setattr___signature__ (obj : callable) (sig : Signature) : Py unit :=
  λ w,
  match obj with
  | object___init__ => (Raised AttributeError, w)
  | FuncRef l =>
      match functions w !! l with
      | Some (Function f) =>
          set_functions (<[l := Function (set___signature__ sig f)]> (functions w)) w
      | _ => (Raised AttributeError, w)
      end
  end.

(** State of the validation loop of [Signature.__init__], as written in
    CPython 3.11: the highest kind seen, whether a positional parameter of
    that kind had a default, and the parameters accepted so far. *)
Record validation := mkValidation {
  top_kind : ParameterKind;
  kind_defaults : bool;
  params : list Param
}.

(** One turn of that loop on [param]; [None] stands for a value that is
    not a parameter, whose [kind] attribute cannot be read. *)
Definition validate_step (st : validation) (param : option Param)
  : outcome validation :=
  match param with
  | None => Raised AttributeError
  | Some param =>
      let kind := param_kind param in
      let name := param_name param in
      if decide (kind_value kind < kind_value (top_kind st)) then
        Raised ValueError
      else
        let '(kind_defaults, top_kind) :=
          if decide (kind_value (top_kind st) < kind_value kind)
          then (false, kind) else (kind_defaults st, top_kind st) in
        let positional :=
          bool_decide (kind = POSITIONAL_ONLY ∨ kind = POSITIONAL_OR_KEYWORD) in
        if positional && bool_decide (param_default param = None) && kind_defaults
        then Raised ValueError
        else
          let kind_defaults :=
            if positional && bool_decide (param_default param ≠ None)
            then true else kind_defaults in
          if bool_decide (name ∈ param_name <$> params st) then Raised ValueError
          else Returned {| top_kind := top_kind;
                           kind_defaults := kind_defaults;
                           params := params st ++ [param] |}
  end.

Fixpoint validate (st : validation) (ps : list (option Param))
  : outcome validation :=
  match ps with
  | [] => Returned st
  | p :: ps' =>
      match validate_step st p with
      | Returned st' => validate st' ps'
      | Raised e => Raised e
      end
  end.

(** [Signature(parameters, return_annotation=...)] with validation. *)
Definition Signature_new (ps : list (option Param)) (ret : option string)
  : outcome Signature :=
  match validate {| top_kind := POSITIONAL_ONLY; kind_defaults := false;
                    params := [] |} ps with
  | Returned st => Returned {| parameters := params st; return_annotation := ret |}
  | Raised e => Raised e
  end.

(** [sig.replace(parameters=ps)] *)
Definition Signature_replace (sig : Signature) (ps : list (option Param))
  : outcome Signature :=
  Signature_new ps (return_annotation sig).

(** [str(param)] and [str(sig)] for parameters without annotations: what
    documentation tools show as the advertised signature.  Only the
    parenthesised parameter list is rendered: the arrow and the return
    annotation that [Signature.__str__] appends when there is one are left
    out.  A string default is shown between single quotes as it is, which
    is its [repr] when it holds no quote, backslash or unprintable
    character. *)
Definition pyvalue_repr (v : pyvalue) : string :=
  match v with
  | PyNone => "None"
  | PyInt z => pretty z
  | PyStr s => "'" +:+ s +:+ "'"
  end.

Definition Param_str (p : Param) : string :=
  let formatted :=
    match param_default p with
    | Some v => param_name p +:+ "=" +:+ pyvalue_repr v
    | None => param_name p
    end in
  match param_kind p with
  | VAR_POSITIONAL => "*" +:+ formatted
  | VAR_KEYWORD => "**" +:+ formatted
  | _ => formatted
  end.

(** The loop of [Signature.__str__]: [pos] is [render_pos_only_separator],
    [kw] is [render_kw_only_separator]. *)
Fixpoint Signature_str_loop (pos kw : bool) (ps : list Param) : list string :=
  match ps with
  | [] => if pos then ["/"] else []
  | p :: ps' =>
      let kind := param_kind p in
      let slash := if decide (kind = POSITIONAL_ONLY) then [] else
                   if pos then ["/"] else [] in
      let pos := bool_decide (kind = POSITIONAL_ONLY) in
      let star := if decide (kind = KEYWORD_ONLY) then
                    if kw then ["*"] else []
                  else [] in
      let kw := if decide (kind = VAR_POSITIONAL) then false else
                if decide (kind = KEYWORD_ONLY) then false else kw in
      slash ++ star ++ [Param_str p] ++ Signature_str_loop pos kw ps'
  end.

Fixpoint join (sep : string) (l : list string) : string :=
  match l with
  | [] => ""
  | [x] => x
  | x :: l' => x +:+ sep +:+ join sep l'
  end.

Definition Signature_str (sig : Signature) : string :=
  "(" +:+ join ", " (Signature_str_loop false true (parameters sig)) +:+ ")".

(** ** The program: [src/warg/kw_passing.py] *)

Definition set_kind (k : ParameterKind) (val : Param) : Param :=
  {| param_name := param_name val; param_kind := k;
     param_default := param_default val |}.

Definition to_keyword_only (val : Param) : Param :=
  if decide (param_kind val = POSITIONAL_OR_KEYWORD)
  then set_kind KEYWORD_ONLY val
  else val.

(** Keys and values of the mapping [eval_sig_kw_params] returns: a name or
    Python's [None], a parameter or Python's [None]. *)
Definition pykey := option string.
Definition pyval := option Param.

(** [dict(sig.parameters)] *)
Definition dict_of_signature (sig : Signature) : Dict.t string Param :=
  (λ p, (param_name p, p)) <$> parameters sig.

(** The first loop of [eval_sig_kw_params]: the key of the last
    variadic-keyword parameter, [None] when there is none. *)
Definition find_var_kw_key (passing_params : Dict.t string Param) : pykey :=
  fold_left
    (λ var_kw_key kv,
       if decide (param_kind kv.2 = VAR_KEYWORD) then Some kv.1 else var_kw_key)
    passing_params None.

(** The condition of the comprehension that builds [to_params]. *)
Definition selected (passing_params : Dict.t string Param) (val : Param) : bool :=
  bool_decide (param_default val ≠ None)
  && negb (Dict.contains (param_name val) passing_params).

(** The mapping with names for keys seen as a mapping that may also hold
    [None]. *)
Definition widen (d : Dict.t string Param) : Dict.t pykey pyval :=
  (λ kv, (Some kv.1, Some kv.2)) <$> d.

(** The parameters of [receiver_func] after [to_keyword_only] has changed
    the selected ones in place.  When the receiver stores its signature in
    [__signature__], the changed parameters are the stored ones, and the
    change is seen by every later [inspect.signature] of the receiver;
    otherwise they are fresh objects nobody else holds.  Signatures are
    kept as values: the parameters two stored signatures may share have
    been through [to_keyword_only], which then leaves them as they are. *)
Definition store_mutated (receiver_func : callable) (ps : list Param) : Py unit :=
  λ w,
  match receiver_func with
  | FuncRef l =>
      match functions w !! l with
      | Some (Function f) =>
          match __signature__ f with
          | Some s =>
              set_functions
                (<[l := Function
                          (set___signature__
                             {| parameters := ps;
                                return_annotation := return_annotation s |} f)]>
                   (functions w)) w
          | None => (Returned tt, w)
          end
      | _ => (Returned tt, w)
      end
  | object___init__ => (Returned tt, w)
  end.

Definition eval_sig_kw_params (passing_sig : Signature) (receiver_func : callable)
    (keep_from_var_kw : bool) : Py (Signature * Dict.t pykey pyval) :=
  let passing_params := dict_of_signature passing_sig in
  receiver_sig ← inspect_signature receiver_func;
  let receiver_params := parameters receiver_sig in
  let var_kw_key := find_var_kw_key passing_params in
  let '(var_kw, passing_params) :=
    match var_kw_key with
    | Some k =>
        if Dict.contains k passing_params
        then (Dict.get k passing_params, Dict.remove k passing_params)
        else (None, passing_params)
    | None => (None, passing_params)
    end in
  let to_params : Dict.t string Param :=
    (λ val, (param_name val, to_keyword_only val))
      <$> filter (λ val, selected passing_params val) receiver_params in
  let receiver_params :=
    (λ val, if selected passing_params val then to_keyword_only val else val)
      <$> receiver_params in
  _ ← store_mutated receiver_func receiver_params;
  let passing_params := Dict.update passing_params to_params in
  if keep_from_var_kw then
    let passing_params := Dict.setitem var_kw_key var_kw (widen passing_params) in
    let no_var_kw :=
      forallb (λ v, negb (bool_decide (param_kind v = VAR_KEYWORD))) receiver_params in
    _ ← (if no_var_kw then warning (Warning receiver_func receiver_params)
         else mret tt);
    mret (passing_sig, passing_params)
  else
    mret (passing_sig, widen passing_params).

(** What [isinstance(_, types.BuiltinFunctionType)] is asked about: the
    tuple that collects the positional arguments, or one callable. *)
Inductive pyobject :=
  | PyTuple (items : list callable)
  | PyCallable (c : callable).

Definition isinstance_BuiltinFunctionType (w : world) (o : pyobject) : bool :=
  match o with
  | PyTuple _ => false
  | PyCallable (FuncRef l) =>
      match functions w !! l with
      | Some (BuiltinFunction _) => true
      | _ => false
      end
  | PyCallable object___init__ => false
  end.

(** The loop of [passes_kws_to._func] over the receivers. *)
Fixpoint passes_kws_to_loop (passing_sig : Signature)
    (receiver_funcs : list callable) (keep_from_var_kw : bool) : Py Signature :=
  match receiver_funcs with
  | [] => mret passing_sig
  | receiver_func :: rest =>
      r ← eval_sig_kw_params passing_sig receiver_func keep_from_var_kw;
      passing_sig ← lift_outcome (Signature_replace r.1 (Dict.values r.2));
      passes_kws_to_loop passing_sig rest keep_from_var_kw
  end.

(** The inner function [_func] of [passes_kws_to]. *)
Definition passes_kws_to__func (receiver_funcs : list callable)
    (keep_from_var_kw : bool) (passing_func : callable) : Py callable :=
  passing_sig ← inspect_signature passing_func;
  passing_sig ← passes_kws_to_loop passing_sig receiver_funcs keep_from_var_kw;
  _ ← setattr___signature__ passing_func passing_sig;
  mret passing_func.

Definition passes_kws_to (receiver_funcs : list callable)
    (keep_from_var_kw : bool) : Py (callable → Py callable) :=
  w ← get_world;
  _ ← assert (negb (isinstance_BuiltinFunctionType w (PyTuple receiver_funcs)));
  mret (passes_kws_to__func receiver_funcs keep_from_var_kw).

(** [inspect.getmro(cls)]: the class, then its ancestors. *)
Definition getmro (cls : loc) (w : world) : list loc :=
  cls :: match classes w !! cls with
         | Some c => cls_ancestors c
         | None => []
         end.

(** [cls.__init__]: the initializer of the first class of the resolution
    order that defines one, [object.__init__] otherwise. *)
Definition getattr___init__ (cls : loc) (w : world) : callable :=
  match
    omap (λ c, classes w !! c ≫= cls_own_init) (getmro cls w)
  with
  | l :: _ => FuncRef l
  | [] => object___init__
  end.

(** The inner function [_func] of [super_init_pass_on_kws]. *)
Definition super_init_pass_on_kws__func (super_base : option loc)
    (keep_from_var_kw : bool) (func : loc) : Py loc :=
  w ← get_world;
  let to_func :=
    match super_base with
    | Some base => getattr___init__ base w
    | None => getattr___init__ (hd func (getmro func w)) w
    end in
  let from_func := getattr___init__ func w in
  from_sig ← inspect_signature from_func;
  r ← eval_sig_kw_params from_sig to_func keep_from_var_kw;
  sig ← lift_outcome (Signature_replace r.1 (Dict.values r.2));
  _ ← setattr___signature__ from_func sig;
  mret func.

(** [super_init_pass_on_kws(f, super_base=..., keep_from_var_kw=...)]: the
    decorated class when [f] is given, the decorator otherwise. *)
Definition super_init_pass_on_kws (f : option loc) (super_base : option loc)
    (keep_from_var_kw : bool) : Py (loc + (loc → Py loc)) :=
  match f with
  | Some f =>
      r ← super_init_pass_on_kws__func super_base keep_from_var_kw f;
      mret (inl r)
  | None => mret (inr (super_init_pass_on_kws__func super_base keep_from_var_kw))
  end.

(** ** Vocabulary of the statements *)

(** A decoration statement: [passes_kws_to] called on the receivers and the
    flag, and the decorator it returns applied to [passing_func]. *)
Definition decorate (receiver_funcs : list callable) (keep_from_var_kw : bool)
    (passing_func : callable) : Py callable :=
  _func ← passes_kws_to receiver_funcs keep_from_var_kw;
  _func passing_func.

(** What [inspect.signature] answers in a world. *)
Definition signature_of (obj : callable) (w : world) : outcome Signature :=
  (inspect_signature obj w).1.

(** Signatures have no duplicate names (their parameters are a mapping). *)
Definition wf_signature (sig : Signature) : Prop :=
  NoDup (param_name <$> parameters sig).

Definition names (sig : Signature) : list string :=
  param_name <$> parameters sig.

Definition has_default (p : Param) : bool :=
  bool_decide (param_default p ≠ None).

Definition is_var_kw (p : Param) : bool :=
  bool_decide (param_kind p = VAR_KEYWORD).

Definition has_var_kw (sig : Signature) : bool :=
  existsb is_var_kw (parameters sig).

(** The parameter a signature holds under a name. *)
Definition param_named (n : string) (sig : Signature) : option Param :=
  Dict.get n (dict_of_signature sig).

(** The working mapping of a merge: the parameters of the passing
    signature once its variadic-keyword parameter is popped. *)
Definition working_params (passing_sig : Signature) : Dict.t string Param :=
  let passing_params := dict_of_signature passing_sig in
  match find_var_kw_key passing_params with
  | Some k =>
      if Dict.contains k passing_params then Dict.remove k passing_params
      else passing_params
  | None => passing_params
  end.

(** The popped variadic-keyword parameter, Python's [None] without one. *)
Definition popped_var_kw (passing_sig : Signature) : pyval :=
  let passing_params := dict_of_signature passing_sig in
  match find_var_kw_key passing_params with
  | Some k =>
      if Dict.contains k passing_params then Dict.get k passing_params else None
  | None => None
  end.

(** The receiver parameters a merge selects, reclassified. *)
Definition to_params (passing_sig receiver_sig : Signature) : Dict.t string Param :=
  (λ val, (param_name val, to_keyword_only val))
    <$> filter (λ val, selected (working_params passing_sig) val)
               (parameters receiver_sig).

(** The receiver parameters after the in-place reclassification. *)
Definition mutated_params (passing_sig receiver_sig : Signature) : list Param :=
  (λ val, if selected (working_params passing_sig) val
          then to_keyword_only val else val) <$> parameters receiver_sig.

(** The mapping a merge returns. *)
Definition merged_mapping (passing_sig receiver_sig : Signature)
    (keep_from_var_kw : bool) : Dict.t pykey pyval :=
  let passing_params :=
    Dict.update (working_params passing_sig) (to_params passing_sig receiver_sig) in
  if keep_from_var_kw then
    Dict.setitem (find_var_kw_key (dict_of_signature passing_sig))
                 (popped_var_kw passing_sig) (widen passing_params)
  else widen passing_params.

(** The world a merge leaves: the receiver's stored parameters reclassified
    in place, and one warning when the variadic-keyword parameter is kept
    although the receiver takes no arbitrary keywords. *)
Definition world_after_merge (passing_sig : Signature) (receiver_func : callable)
    (receiver_sig : Signature) (keep_from_var_kw : bool) (w : world) : world :=
  let receiver_params := mutated_params passing_sig receiver_sig in
  let w1 := (store_mutated receiver_func receiver_params w).2 in
  if keep_from_var_kw && forallb (λ v, negb (is_var_kw v)) receiver_params
  then (warning (Warning receiver_func receiver_params) w1).2
  else w1.

(** A signature as Python builds them: it passes the validation of the
    constructor. *)
Definition valid_signature (sig : Signature) : Prop :=
  Signature_new (Some <$> parameters sig) (return_annotation sig) = Returned sig.

(** The callable is a function defined in Python. *)
Definition is_function (obj : callable) (w : world) : Prop :=
  ∃ l f, obj = FuncRef l ∧ functions w !! l = Some (Function f).

(** An object with its [__signature__] attribute left out. *)
Definition forget_signature (o : FuncObject) : FuncObject :=
  match o with
  | Function f =>
      Function {| __name__ := __name__ f; __code__ := __code__ f;
                  __signature__ := None |}
  | BuiltinFunction s => BuiltinFunction s
  end.

(** Two worlds that differ at most in [__signature__] attributes and in
    the log: the classes are the same, every location holds the same
    object with the same name and the same code. *)
Definition frame (w w' : world) : Prop :=
  classes w' = classes w ∧
  ∀ l, forget_signature <$> functions w' !! l
       = forget_signature <$> functions w !! l.

(** A computation that changes at most [__signature__] attributes and the
    log, whatever its outcome. *)
Definition framed {A} (m : Py A) : Prop := ∀ w, frame w (m w).2.

(** A computation that can only return [a], when it returns. *)
Definition returns_only {A} (m : Py A) (a : A) : Prop :=
  ∀ w, (m w).1 = Returned a ∨ ∃ e, (m w).1 = Raised e.

(** The parameters of [s'] are those of [s], some of them reclassified. *)
Definition reclassified (s s' : Signature) : Prop :=
  Forall2 (λ p p', p' = p ∨ p' = to_keyword_only p) (parameters s) (parameters s').

(** ** Scenarios *)

Module Scenario.

Definition def (name : string) (body : nat) (ps : list Param) : FuncObject :=
  Function {| __name__ := name;
              __code__ := {| co_declared := {| parameters := ps;
                                               return_annotation := None |};
                             co_body := body |};
              __signature__ := None |}.

Definition sig (ps : list Param) : Signature :=
  {| parameters := ps; return_annotation := None |}.

Definition builtin (ps : option (list Param)) : FuncObject :=
  BuiltinFunction
    ((λ ps, {| parameters := ps; return_annotation := None |}) <$> ps).

Definition world_of (fs : list (loc * FuncObject)) (cs : list (loc * ClassObj))
  : world :=
  {| functions := list_to_map fs; classes := list_to_map cs; log := [] |}.

Definition pos (n : string) := mkParam n POSITIONAL_OR_KEYWORD None.
Definition pos_only (n : string) := mkParam n POSITIONAL_ONLY None.
Definition pos_only_dflt (n : string) (z : Z) :=
  mkParam n POSITIONAL_ONLY (Some (PyInt z)).
Definition dflt (n : string) (z : Z) :=
  mkParam n POSITIONAL_OR_KEYWORD (Some (PyInt z)).
Definition kw_only (n : string) (z : Z) :=
  mkParam n KEYWORD_ONLY (Some (PyInt z)).
Definition var_pos (n : string) := mkParam n VAR_POSITIONAL None.
Definition var_kw (n : string) := mkParam n VAR_KEYWORD None.

Definition f : callable := FuncRef 1.
Definition g : callable := FuncRef 2.
Definition h : callable := FuncRef 3.

(** [def f(a, *args, **kwargs)] and [def g(a, b=1, c=2)] *)
Definition w_fg : world :=
  world_of [(1, def "f" 1 [pos "a"; var_pos "args"; var_kw "kwargs"]);
            (2, def "g" 2 [pos "a"; dflt "b" 1; dflt "c" 2])] [].

(** [class Base] with [__init__(self, x, y=1)] and [class Sub(Base)] with
    [__init__(self, x, z=2, **kwargs)] *)
Definition Base : loc := 10.
Definition Sub : loc := 11.
Definition w_classes : world :=
  world_of [(1, def "__init__" 1 [pos "self"; pos "x"; dflt "y" 1]);
            (2, def "__init__" 2 [pos "self"; pos "x"; dflt "z" 2;
                                  var_kw "kwargs"])]
           [(Base, {| cls_name := "Base"; cls_own_init := Some 1;
                      cls_ancestors := [] |});
            (Sub, {| cls_name := "Sub"; cls_own_init := Some 2;
                     cls_ancestors := [Base] |})].

(** [def f(a, **kwargs)] with the builtins [len], whose text signature is
    [(obj, /)], and [max], which has none *)
Definition len : callable := FuncRef 2.
Definition max : callable := FuncRef 3.
Definition w_builtins : world :=
  world_of [(1, def "f" 1 [pos "a"; var_kw "kwargs"]);
            (2, builtin (Some [pos_only "obj"]));
            (3, builtin None)] [].

(** [def f(a, /)] and [def g(b=1, /)] *)
Definition w_pos_only : world :=
  world_of [(1, def "f" 1 [pos_only "a"]);
            (2, def "g" 2 [pos_only_dflt "b" 1])] [].

(** [def f(a, **kwargs)] and [def g(b=1)] *)
Definition w_disjoint : world :=
  world_of [(1, def "f" 1 [pos "a"; var_kw "kwargs"]);
            (2, def "g" 2 [dflt "b" 1])] [].

(** [def f(a)] and [def g(b=1)] *)
Definition w_no_var_kw : world :=
  world_of [(1, def "f" 1 [pos "a"]);
            (2, def "g" 2 [dflt "b" 1])] [].

(** [def f(a, **kwargs)] and [def g(b=1, /)] *)
Definition w_order : world :=
  world_of [(1, def "f" 1 [pos "a"; var_kw "kwargs"]);
            (2, def "g" 2 [pos_only_dflt "b" 1])] [].

(** [def f(a, **kwargs)], [def g(b=1)] and [def h(kwargs=3, b=9, c=4)] *)
Definition w_chain : world :=
  world_of [(1, def "f" 1 [pos "a"; var_kw "kwargs"]);
            (2, def "g" 2 [dflt "b" 1]);
            (3, def "h" 3 [dflt "kwargs" 3; dflt "b" 9; dflt "c" 4])] [].

(** What the world advertises for a callable, printed. *)
Definition advertised (obj : callable) (w : world) : option string :=
  match signature_of obj w with
  | Returned s => Some (Signature_str s)
  | Raised _ => None
  end.

End Scenario.

(** ** Vocabulary of the further properties *)

(** Every signature the world can show has no duplicate names. *)
Definition wf_world (w : world) : Prop :=
  ∀ obj s, signature_of obj w = Returned s → wf_signature s.

(** The world in which the function at [l], if there is one, stores the
    signature [s] in [__signature__]. *)
Definition store_signature (s : Signature) (o : FuncObject) : FuncObject :=
  match o with
  | Function f => Function (set___signature__ s f)
  | BuiltinFunction t => BuiltinFunction t
  end.

Definition with_signature (l : loc) (s : Signature) (w : world) : world :=
  {| functions := alter (store_signature s) l (functions w);
     classes := classes w; log := log w |}.

(** The decorator stacked above an already decorated definition. *)
Definition then_decorate (receiver_funcs : list callable) (keep_from_var_kw : bool)
    (m : Py callable) : Py callable :=
  passing_func ← m;
  decorate receiver_funcs keep_from_var_kw passing_func.

(** The receiver [super_init_pass_on_kws] resolves for a class. *)
Definition super_init_receiver (super_base : option loc) (func : loc) (w : world)
  : callable :=
  match super_base with
  | Some base => getattr___init__ base w
  | None => getattr___init__ (hd func (getmro func w)) w
  end.

(** The signature an object of the world shows has no duplicate names. *)
Definition wf_object (o : FuncObject) : Prop :=
  match o with
  | Function f =>
      wf_signature (match __signature__ f with
                    | Some s => s
                    | None => co_declared (__code__ f)
                    end)
  | BuiltinFunction (Some s) => wf_signature s
  | BuiltinFunction None => True
  end.

Global Instance wf_object_dec o : Decision (wf_object o).
Proof.
  destruct o as [f|[s|]]; simpl; unfold wf_signature; apply _.
Defined.





Module Stored.

(** [def f(x, **kwargs)], and [def g(a, b=1)] on which an earlier
    decoration left a stored signature equal to the declared one. *)
Definition g_sig : Signature := Scenario.sig [Scenario.pos "a"; Scenario.dflt "b" 1].

Definition w_stored : world :=
  Scenario.world_of
    [(1, Scenario.def "f" 1 [Scenario.pos "x"; Scenario.var_kw "kwargs"]);
     (2, Function {| __name__ := "g";
                     __code__ := {| co_declared := g_sig; co_body := 2 |};
                     __signature__ := Some g_sig |})] [].

End Stored.

(** ** The demonstration under [if __name__ == "__main__"]

    The classes of the demonstration and its three decorations, up to the
    prints of the signatures; the instances built after them are calls,
    which the decorators do not touch. *)
Module Demo.

Definition kw_only_None (n : string) : Param := mkParam n KEYWORD_ONLY (Some PyNone).

Definition BaseClass : loc := 20.
Definition SubClass0 : loc := 21.
Definition SubClass1 : loc := 22.
Definition SubClass2 : loc := 23.

Definition sub_init : list Param :=
  [Scenario.pos "self"; Scenario.pos "arg0"; Scenario.pos "arg1";
   Scenario.pos "arg2"; Scenario.var_pos "args"; kw_only_None "kwarg2";
   Scenario.var_kw "kwargs"].

(** The world once the four class bodies have been evaluated, before any
    decorator has run: each class has an [__init__] of its own. *)
Definition w_main : world :=
  Scenario.world_of
    [(10, Scenario.def "__init__" 10
            [Scenario.pos "self"; Scenario.pos "arg0"; Scenario.var_pos "args";
             kw_only_None "kwarg0"; kw_only_None "kwarg1";
             Scenario.var_kw "kwargs"]);
     (11, Scenario.def "__init__" 11 sub_init);
     (12, Scenario.def "__init__" 12 sub_init);
     (13, Scenario.def "__init__" 13 sub_init)]
    [(BaseClass, {| cls_name := "BaseClass"; cls_own_init := Some 10;
                    cls_ancestors := [] |});
     (SubClass0, {| cls_name := "SubClass0"; cls_own_init := Some 11;
                    cls_ancestors := [BaseClass] |});
     (SubClass1, {| cls_name := "SubClass1"; cls_own_init := Some 12;
                    cls_ancestors := [BaseClass] |});
     (SubClass2, {| cls_name := "SubClass2"; cls_own_init := Some 13;
                    cls_ancestors := [BaseClass] |})].

(** [cls.__init__] *)
Definition init_of (cls : loc) : Py callable := λ w,
  (Returned (getattr___init__ cls w), w).

(** [str(inspect.signature(cls.__init__))], what [print] shows. *)
Definition printed_signature (cls : loc) : Py string :=
  init ← init_of cls;
  sig ← inspect_signature init;
  mret (Signature_str sig).

(** The decorations in the order the module runs them, then the three
    prints; the second and the third print both show [SubClass1]. *)
Definition main : Py (list string) :=
  base_init ← init_of BaseClass;
  _func ← passes_kws_to [base_init] false;
  sub0_init ← init_of SubClass0;
  _ ← _func sub0_init;
  _ ← super_init_pass_on_kws (Some SubClass1) None false;
  decorator ← super_init_pass_on_kws None (Some BaseClass) false;
  _ ← match decorator with
      | inr _func => _func SubClass2
      | inl cls => mret cls
      end;
  line1 ← printed_signature SubClass0;
  line2 ← printed_signature SubClass1;
  line3 ← printed_signature SubClass1;
  mret [line1; line2; line3].

End Demo.

(** * Properties *)

(** ** Dictionaries *)

Section dict_facts.
Context {K V : Type} `{EqDecision K}.
Implicit Types (d other : Dict.t K V) (k : K) (v : V).

Lemma contains_true k d : Dict.contains k d = true ↔ k ∈ Dict.keys d.
Proof. unfold Dict.contains. by rewrite bool_decide_eq_true. Qed.

Lemma contains_false k d : Dict.contains k d = false ↔ k ∉ Dict.keys d.
Proof. unfold Dict.contains. by rewrite bool_decide_eq_false. Qed.

Lemma setitem_absent k v d :
  k ∉ Dict.keys d → Dict.setitem k v d = d ++ [(k, v)].
Proof.
  induction d as [|[k' v'] d IH]; simpl; [done|].
  intros Hk. apply not_elem_of_cons in Hk as [Hne Hk].
  case_decide; [congruence|]. by rewrite IH.
Qed.

Lemma setitem_length_present k v d :
  k ∈ Dict.keys d → length (Dict.setitem k v d) = length d.
Proof.
  induction d as [|[k' v'] d IH]; simpl; [by intros ?%elem_of_nil|].
  intros Hk. case_decide; simpl; [done|].
  apply elem_of_cons in Hk as [->|Hk]; [done|]. by rewrite IH.
Qed.

Lemma get_setitem k v d : Dict.get k (Dict.setitem k v d) = Some v.
Proof.
  induction d as [|[k' v'] d IH]; simpl.
  - by rewrite decide_True.
  - case_decide; simpl; [by rewrite decide_True|]. by rewrite decide_False.
Qed.

Lemma get_setitem_ne k k' v d :
  k ≠ k' → Dict.get k' (Dict.setitem k v d) = Dict.get k' d.
Proof.
  intros Hne. induction d as [|[k0 v0] d IH]; simpl.
  - by rewrite decide_False.
  - destruct (decide (k0 = k)) as [->|]; simpl.
    + by rewrite !decide_False.
    + by rewrite IH.
Qed.

Lemma get_None k d : Dict.get k d = None ↔ k ∉ Dict.keys d.
Proof.
  induction d as [|[k' v'] d IH]; simpl.
  - split; [intros _; apply not_elem_of_nil|done].
  - rewrite not_elem_of_cons. case_decide.
    + split; [done|]. intros [? _]. congruence.
    + rewrite IH. split; [intros ?; split; congruence|by intros [_ ?]].
Qed.

Lemma get_app k d other :
  Dict.get k (d ++ other) =
  match Dict.get k d with Some v => Some v | None => Dict.get k other end.
Proof.
  induction d as [|[k' v'] d IH]; simpl; [done|]. by case_decide.
Qed.

Lemma get_elem_of k v d : Dict.get k d = Some v → (k, v) ∈ d.
Proof.
  induction d as [|[k' v'] d IH]; simpl; [done|].
  case_decide; [intros [= ->]; subst; left|intros ?; right; auto].
Qed.

Lemma elem_of_get k v d : NoDup (Dict.keys d) → (k, v) ∈ d → Dict.get k d = Some v.
Proof.
  induction d as [|[k' v'] d IH]; simpl; [by intros _ ?%elem_of_nil|].
  intros [Hk' Hnd]%NoDup_cons [[= -> ->]|Hin]%elem_of_cons.
  - by rewrite decide_True.
  - rewrite decide_False; [auto|]. intros ->. apply Hk'.
    apply list_elem_of_fmap. by exists (k, v).
Qed.

Lemma update_fresh d other :
  NoDup (Dict.keys other) → Dict.keys other ## Dict.keys d →
  Dict.update d other = d ++ other.
Proof.
  unfold Dict.update. revert d.
  induction other as [|[k v] other IH]; intros d Hnd Hdisj; simpl.
  - by rewrite app_nil_r.
  - simpl in Hnd. apply NoDup_cons in Hnd as [Hk Hnd].
    rewrite setitem_absent by (intros ?; eapply Hdisj; [left|done]).
    rewrite IH, <-app_assoc; [done..|].
    unfold Dict.keys in *. rewrite fmap_app. simpl.
    intros k' Hin [Hin'|Hin']%elem_of_app.
    + eapply Hdisj; [by right|done].
    + apply list_elem_of_singleton in Hin' as ->. done.
Qed.

Lemma keys_remove_subseteq k d : Dict.keys (Dict.remove k d) ⊆ Dict.keys d.
Proof.
  induction d as [|[k' v'] d IH]; simpl; [done|].
  case_decide; simpl; [intros x Hx; by right|].
  intros x [->|Hx]%elem_of_cons; [left|right; by apply IH].
Qed.

Lemma keys_remove_NoDup k d :
  NoDup (Dict.keys d) → k ∉ Dict.keys (Dict.remove k d).
Proof.
  induction d as [|[k' v'] d IH]; simpl; [intros _; apply not_elem_of_nil|].
  intros [Hk' Hnd]%NoDup_cons. case_decide; simpl; [by subst|].
  rewrite not_elem_of_cons. split; [done|auto].
Qed.

Lemma remove_NoDup k d : NoDup (Dict.keys d) → NoDup (Dict.keys (Dict.remove k d)).
Proof.
  induction d as [|[k' v'] d IH]; simpl; [done|].
  intros [Hk' Hnd]%NoDup_cons. case_decide; simpl; [done|].
  apply NoDup_cons. split; [|auto].
  intros Hin. by apply Hk', (keys_remove_subseteq k).
Qed.

Lemma keys_remove_ne k k' d :
  k ≠ k' → k' ∈ Dict.keys d → k' ∈ Dict.keys (Dict.remove k d).
Proof.
  intros Hne. induction d as [|[k0 v0] d IH]; simpl; [done|].
  intros [->|Hin]%elem_of_cons.
  - rewrite decide_False by done. left.
  - case_decide; [done|]. right. auto.
Qed.

Lemma get_remove_ne k k' d :
  k ≠ k' → Dict.get k' (Dict.remove k d) = Dict.get k' d.
Proof.
  intros Hne. induction d as [|[k0 v0] d IH]; simpl; [done|].
  destruct (decide (k0 = k)) as [->|]; simpl.
  - by rewrite decide_False.
  - by rewrite IH.
Qed.

Lemma remove_length k d :
  k ∈ Dict.keys d → S (length (Dict.remove k d)) = length d.
Proof.
  induction d as [|[k' v'] d IH]; simpl; [by intros ?%elem_of_nil|].
  intros Hin. case_decide; simpl; [done|].
  apply elem_of_cons in Hin as [->|Hin]; [done|]. by rewrite IH.
Qed.
End dict_facts.

(** ** The effects of the primitives *)

Lemma inspect_signature_world obj w : (inspect_signature obj w).2 = w.
Proof.
  unfold inspect_signature. destruct obj as [l|]; [|done].
  destruct (functions w !! l) as [[f|[s|]]|]; try done.
  by destruct (__signature__ f).
Qed.

Lemma inspect_signature_eq obj w :
  inspect_signature obj w = (signature_of obj w, w).
Proof.
  unfold signature_of. rewrite <-(inspect_signature_world obj w) at 3.
  by destruct (inspect_signature obj w).
Qed.

Lemma store_mutated_returns obj ps w : (store_mutated obj ps w).1 = Returned tt.
Proof.
  unfold store_mutated. destruct obj as [l|]; [|done].
  destruct (functions w !! l) as [[f|?]|]; try done.
  by destruct (__signature__ f).
Qed.

Lemma store_mutated_eq obj ps w :
  store_mutated obj ps w = (Returned tt, (store_mutated obj ps w).2).
Proof.
  rewrite <-(store_mutated_returns obj ps w). by destruct (store_mutated obj ps w).
Qed.

(** ** The merge in closed form *)

Lemma eval_sig_kw_params_eq passing_sig receiver_func keep_from_var_kw w rsig :
  signature_of receiver_func w = Returned rsig →
  eval_sig_kw_params passing_sig receiver_func keep_from_var_kw w =
    (Returned (passing_sig, merged_mapping passing_sig rsig keep_from_var_kw),
     world_after_merge passing_sig receiver_func rsig keep_from_var_kw w).
Proof.
  intros Hsig. unfold eval_sig_kw_params, mbind, Py_bind.
  rewrite inspect_signature_eq, Hsig.
  unfold merged_mapping, world_after_merge, to_params, mutated_params,
    working_params, popped_var_kw, is_var_kw.
  destruct (find_var_kw_key (dict_of_signature passing_sig)) as [k|];
    [destruct (Dict.contains k (dict_of_signature passing_sig))|];
    rewrite store_mutated_eq;
    (destruct keep_from_var_kw; simpl; [|done]);
    by destruct (forallb _ _).
Qed.

Lemma eval_sig_kw_params_raises passing_sig receiver_func keep_from_var_kw w e :
  signature_of receiver_func w = Raised e →
  eval_sig_kw_params passing_sig receiver_func keep_from_var_kw w = (Raised e, w).
Proof.
  intros Hsig. unfold eval_sig_kw_params, mbind, Py_bind.
  by rewrite inspect_signature_eq, Hsig.
Qed.

(** ** The variadic-keyword scan and the working mapping *)

Lemma find_var_kw_key_acc (d : Dict.t string Param) (acc : pykey) :
  fold_left
    (λ var_kw_key kv,
       if decide (param_kind kv.2 = VAR_KEYWORD) then Some kv.1 else var_kw_key)
    d acc
  = match find_var_kw_key d with Some k => Some k | None => acc end.
Proof.
  unfold find_var_kw_key. revert acc.
  induction d as [|[k p] d IH]; intros acc; simpl; [done|].
  rewrite IH, (IH (if decide _ then _ else _)).
  destruct (fold_left _ d None); [done|]. by case_decide.
Qed.

Lemma find_var_kw_key_cons k p (d : Dict.t string Param) :
  find_var_kw_key ((k, p) :: d) =
  match find_var_kw_key d with
  | Some k' => Some k'
  | None => if decide (param_kind p = VAR_KEYWORD) then Some k else None
  end.
Proof. unfold find_var_kw_key at 1. simpl. by rewrite find_var_kw_key_acc. Qed.

Lemma find_var_kw_key_Some (d : Dict.t string Param) k :
  find_var_kw_key d = Some k →
  ∃ p, (k, p) ∈ d ∧ param_kind p = VAR_KEYWORD.
Proof.
  induction d as [|[k' p'] d IH]; [done|].
  rewrite find_var_kw_key_cons.
  destruct (find_var_kw_key d) as [k0|].
  - intros [= ->]. destruct IH as (p & Hin & Hk); [done|].
    exists p. split; [by right|done].
  - case_decide; [|done]. intros [= ->]. exists p'. split; [left|done].
Qed.

Lemma find_var_kw_key_None (d : Dict.t string Param) :
  find_var_kw_key d = None ↔ ∀ kv, kv ∈ d → param_kind kv.2 ≠ VAR_KEYWORD.
Proof.
  induction d as [|[k' p'] d IH].
  - split; [intros _ ? ?%elem_of_nil; done|done].
  - rewrite find_var_kw_key_cons. destruct (find_var_kw_key d) as [k0|].
    + split; [done|]. intros Hall.
      assert (Some k0 = None) as [=]. apply IH. intros kv Hin. apply Hall. by right.
    + case_decide as Hk.
      * split; [done|]. intros Hall. exfalso. apply (Hall (k', p')); [left|done].
      * split; [|done]. intros _ kv [->|Hin]%elem_of_cons; [done|].
        by apply IH.
Qed.

Lemma keys_dict_of_signature sig : Dict.keys (dict_of_signature sig) = names sig.
Proof.
  unfold Dict.keys, dict_of_signature, names.
  rewrite <-list_fmap_compose. by apply list_fmap_ext.
Qed.

Lemma values_dict_of_signature sig :
  Dict.values (dict_of_signature sig) = parameters sig.
Proof.
  unfold Dict.values, dict_of_signature.
  rewrite <-list_fmap_compose. rewrite <-(list_fmap_id (parameters sig)) at 2.
  by apply list_fmap_ext.
Qed.

Lemma elem_of_dict_of_signature sig k p :
  (k, p) ∈ dict_of_signature sig ↔ p ∈ parameters sig ∧ k = param_name p.
Proof.
  unfold dict_of_signature. rewrite list_elem_of_fmap. split.
  - intros (q & [= -> ->] & Hq). done.
  - intros [Hp ->]. by exists p.
Qed.

Lemma has_var_kw_false sig :
  has_var_kw sig = false ↔ ∀ p, p ∈ parameters sig → param_kind p ≠ VAR_KEYWORD.
Proof.
  unfold has_var_kw. rewrite <-not_true_iff_false, existsb_exists.
  split.
  - intros Hno p Hp Hk. apply Hno. exists p. split; [by apply list_elem_of_In|].
    unfold is_var_kw. by apply bool_decide_eq_true.
  - intros Hall (p & Hp%list_elem_of_In & Hk). unfold is_var_kw in Hk.
    apply bool_decide_eq_true in Hk. by eapply Hall.
Qed.

Lemma find_var_kw_key_has_var_kw sig :
  find_var_kw_key (dict_of_signature sig) = None ↔ has_var_kw sig = false.
Proof.
  rewrite find_var_kw_key_None, has_var_kw_false. split.
  - intros Hall p Hp. apply (Hall (param_name p, p)).
    by apply elem_of_dict_of_signature.
  - intros Hall [k p] [Hp _]%elem_of_dict_of_signature. by apply Hall.
Qed.

(** Without a variadic-keyword parameter nothing is popped. *)
Lemma working_params_no_var_kw sig :
  has_var_kw sig = false →
  working_params sig = dict_of_signature sig ∧ popped_var_kw sig = None.
Proof.
  intros Hno%find_var_kw_key_has_var_kw.
  unfold working_params, popped_var_kw. by rewrite Hno.
Qed.

(** With one, it is popped: the working mapping loses exactly that key. *)
Lemma working_params_var_kw sig k :
  find_var_kw_key (dict_of_signature sig) = Some k →
  working_params sig = Dict.remove k (dict_of_signature sig) ∧
  ∃ p, popped_var_kw sig = Some p ∧ p ∈ parameters sig ∧ param_name p = k.
Proof.
  intros Hk. unfold working_params, popped_var_kw. rewrite Hk.
  destruct (find_var_kw_key_Some _ _ Hk) as (p & Hin & Hkind).
  assert (k ∈ Dict.keys (dict_of_signature sig)) as Hkeys.
  { apply list_elem_of_fmap. by exists (k, p). }
  apply contains_true in Hkeys as Hc. rewrite Hc. split; [done|].
  destruct (Dict.get k (dict_of_signature sig)) as [q|] eqn:Hget.
  - exists q. split; [done|].
    apply get_elem_of, elem_of_dict_of_signature in Hget as [? ->]. done.
  - by apply get_None in Hget.
Qed.

Lemma working_params_keys sig : Dict.keys (working_params sig) ⊆ names sig.
Proof.
  unfold working_params. rewrite <-keys_dict_of_signature.
  destruct (find_var_kw_key _) as [k|]; [|done].
  destruct (Dict.contains _ _); [|done]. apply keys_remove_subseteq.
Qed.

Lemma working_params_NoDup sig :
  wf_signature sig → NoDup (Dict.keys (working_params sig)).
Proof.
  unfold wf_signature, working_params. fold (names sig).
  rewrite <-keys_dict_of_signature. intros Hnd.
  destruct (find_var_kw_key _) as [k|]; [|done].
  destruct (Dict.contains _ _); [|done]. by apply remove_NoDup.
Qed.

Lemma working_params_length sig :
  length (working_params sig) + (if has_var_kw sig then 1 else 0)
  = length (parameters sig).
Proof.
  destruct (has_var_kw sig) eqn:Hv.
  - destruct (find_var_kw_key (dict_of_signature sig)) as [k|] eqn:Hk.
    + destruct (working_params_var_kw _ _ Hk) as (-> & p & _ & Hp & Hn).
      rewrite Nat.add_1_r, remove_length.
      * unfold dict_of_signature. by rewrite length_fmap.
      * rewrite keys_dict_of_signature. apply list_elem_of_fmap. by exists p.
    + apply find_var_kw_key_has_var_kw in Hk. congruence.
  - destruct (working_params_no_var_kw _ Hv) as [-> _].
    unfold dict_of_signature. rewrite length_fmap. lia.
Qed.

(** ** The merged mapping *)

Lemma keys_widen (d : Dict.t string Param) : Dict.keys (widen d) = Some <$> Dict.keys d.
Proof. unfold Dict.keys, widen. by rewrite <-!list_fmap_compose. Qed.

Lemma values_widen (d : Dict.t string Param) :
  Dict.values (widen d) = Some <$> Dict.values d.
Proof. unfold Dict.values, widen. by rewrite <-!list_fmap_compose. Qed.

Lemma get_widen (d : Dict.t string Param) k :
  Dict.get (Some k) (widen d) = Some <$> Dict.get k d.
Proof.
  induction d as [|[k' p] d IH]; simpl; [done|].
  destruct (decide (k' = k)) as [->|Hne].
  - by rewrite decide_True.
  - rewrite decide_False by congruence. done.
Qed.

Lemma keys_to_params passing_sig receiver_sig :
  Dict.keys (to_params passing_sig receiver_sig) =
  param_name <$> filter (λ val, selected (working_params passing_sig) val)
                        (parameters receiver_sig).
Proof. unfold Dict.keys, to_params. by rewrite <-list_fmap_compose. Qed.

Lemma to_params_NoDup passing_sig receiver_sig :
  wf_signature receiver_sig → NoDup (Dict.keys (to_params passing_sig receiver_sig)).
Proof.
  intros Hwf. rewrite keys_to_params.
  eapply sublist_NoDup; [exact Hwf|]. apply fmap_sublist, sublist_filter.
Qed.

Lemma to_params_disjoint passing_sig receiver_sig :
  Dict.keys (to_params passing_sig receiver_sig)
  ## Dict.keys (working_params passing_sig).
Proof.
  rewrite keys_to_params.
  intros k (val & -> & [Hsel _]%list_elem_of_filter)%list_elem_of_fmap Hin.
  unfold selected in Hsel. apply andb_prop_elim in Hsel as [_ Hsel].
  apply negb_prop_elim in Hsel. apply Hsel, Is_true_eq_left.
  by apply contains_true.
Qed.

(** The selected receiver parameters come after the passing ones. *)
Lemma update_to_params passing_sig receiver_sig :
  wf_signature receiver_sig →
  Dict.update (working_params passing_sig) (to_params passing_sig receiver_sig)
  = working_params passing_sig ++ to_params passing_sig receiver_sig.
Proof.
  intros Hwf. apply update_fresh; [by apply to_params_NoDup|].
  apply to_params_disjoint.
Qed.

Lemma merged_mapping_drop passing_sig receiver_sig :
  wf_signature receiver_sig →
  merged_mapping passing_sig receiver_sig false
  = widen (working_params passing_sig ++ to_params passing_sig receiver_sig).
Proof. intros Hwf. unfold merged_mapping. by rewrite update_to_params. Qed.

Lemma merged_mapping_keep passing_sig receiver_sig :
  wf_signature receiver_sig →
  merged_mapping passing_sig receiver_sig true
  = Dict.setitem (find_var_kw_key (dict_of_signature passing_sig))
      (popped_var_kw passing_sig)
      (widen (working_params passing_sig ++ to_params passing_sig receiver_sig)).
Proof. intros Hwf. unfold merged_mapping. by rewrite update_to_params. Qed.

Lemma elem_of_to_params passing_sig receiver_sig val :
  val ∈ parameters receiver_sig →
  selected (working_params passing_sig) val = true →
  (param_name val, to_keyword_only val) ∈ to_params passing_sig receiver_sig.
Proof.
  intros Hin Hsel. unfold to_params. apply list_elem_of_fmap.
  exists val. split; [done|]. apply list_elem_of_filter. split; [|done].
  by apply Is_true_eq_left.
Qed.

Lemma length_to_params passing_sig receiver_sig :
  length (to_params passing_sig receiver_sig)
  = length (filter (λ val, selected (working_params passing_sig) val)
                   (parameters receiver_sig)).
Proof. unfold to_params. by rewrite length_fmap. Qed.

Lemma to_keyword_only_name val : param_name (to_keyword_only val) = param_name val.
Proof. unfold to_keyword_only. by case_decide. Qed.

Lemma to_keyword_only_default val :
  param_default (to_keyword_only val) = param_default val.
Proof. unfold to_keyword_only. by case_decide. Qed.

Lemma to_keyword_only_kind val :
  param_kind (to_keyword_only val) =
  if decide (param_kind val = POSITIONAL_OR_KEYWORD) then KEYWORD_ONLY
  else param_kind val.
Proof. unfold to_keyword_only. by case_decide. Qed.

Lemma to_keyword_only_idemp val :
  to_keyword_only (to_keyword_only val) = to_keyword_only val.
Proof. by destruct val as [n [] d]. Qed.

(** ** Rebuilding a signature *)

Lemma validate_step_params st p st' :
  validate_step st p = Returned st' →
  ∃ q, p = Some q ∧ params st' = params st ++ [q] ∧
       param_name q ∉ param_name <$> params st.
Proof.
  unfold validate_step. destruct p as [q|]; [|done].
  case_decide; [done|].
  destruct (if decide (_ < _) then _ else _) as [kd tk].
  destruct (_ && _ && kd); [done|].
  case_bool_decide as Hin; [done|].
  intros [= <-]. by exists q.
Qed.

Lemma validate_params st ps st' :
  validate st ps = Returned st' →
  Some <$> params st' = (Some <$> params st) ++ ps.
Proof.
  revert st. induction ps as [|p ps IH]; intros st; simpl.
  - intros [= ->]. by rewrite app_nil_r.
  - destruct (validate_step st p) as [st1|] eqn:Hstep; [|done].
    intros Hv. rewrite (IH _ Hv).
    apply validate_step_params in Hstep as (q & -> & -> & _).
    by rewrite fmap_app, <-app_assoc.
Qed.

Lemma validate_NoDup st ps st' :
  validate st ps = Returned st' →
  NoDup (param_name <$> params st) → NoDup (param_name <$> params st').
Proof.
  revert st. induction ps as [|p ps IH]; intros st; simpl.
  - by intros [= ->].
  - destruct (validate_step st p) as [st1|] eqn:Hstep; [|done].
    intros Hv Hnd. apply (IH _ Hv).
    apply validate_step_params in Hstep as (q & -> & -> & Hq).
    rewrite fmap_app. apply NoDup_app. split_and!; [done| |apply NoDup_singleton].
    intros x Hx ->%list_elem_of_singleton. done.
Qed.

(** A mapping that holds Python's [None] cannot be made a signature. *)
Lemma validate_None st ps : None ∈ ps → ∀ st', validate st ps ≠ Returned st'.
Proof.
  intros Hin st' Hv. apply validate_params in Hv.
  assert (None ∈ Some <$> params st') as (? & [=] & _)%list_elem_of_fmap.
  rewrite Hv. apply elem_of_app. by right.
Qed.

Lemma Signature_replace_None sig ps :
  None ∈ ps → ∀ sig', Signature_replace sig ps ≠ Returned sig'.
Proof.
  intros Hin sig'. unfold Signature_replace, Signature_new.
  destruct (validate _ ps) as [st|] eqn:Hv; [|done].
  by apply validate_None in Hv.
Qed.

(** A rebuilt signature holds exactly the values it was built from, keeps
    the return annotation and has no duplicate names. *)
Lemma Signature_replace_Returned sig ps sig' :
  Signature_replace sig ps = Returned sig' →
  Some <$> parameters sig' = ps ∧
  return_annotation sig' = return_annotation sig ∧
  wf_signature sig'.
Proof.
  unfold Signature_replace, Signature_new.
  destruct (validate _ ps) as [st|] eqn:Hv; [|done].
  intros [= <-]. simpl. split_and!; [|done|].
  - by apply validate_params in Hv.
  - apply validate_NoDup in Hv; [done|]. simpl. apply NoDup_nil_2.
Qed.

(** ** The decorators in closed form *)

(** The assertion of [passes_kws_to] looks at the tuple of receivers, which
    is no builtin function: it never fires. *)
Lemma passes_kws_to_returns receiver_funcs keep_from_var_kw w :
  passes_kws_to receiver_funcs keep_from_var_kw w
  = (Returned (passes_kws_to__func receiver_funcs keep_from_var_kw), w).
Proof. done. Qed.

Lemma decorate_eq receiver_funcs keep_from_var_kw passing_func w :
  decorate receiver_funcs keep_from_var_kw passing_func w
  = passes_kws_to__func receiver_funcs keep_from_var_kw passing_func w.
Proof. done. Qed.

(** One turn of the loop over the receivers. *)
Lemma passes_kws_to_loop_cons passing_sig receiver_func rest keep w rsig :
  signature_of receiver_func w = Returned rsig →
  passes_kws_to_loop passing_sig (receiver_func :: rest) keep w =
  match Signature_replace passing_sig
          (Dict.values (merged_mapping passing_sig rsig keep)) with
  | Returned sig' =>
      passes_kws_to_loop sig' rest keep
        (world_after_merge passing_sig receiver_func rsig keep w)
  | Raised e =>
      (Raised e, world_after_merge passing_sig receiver_func rsig keep w)
  end.
Proof.
  intros Hsig. simpl. unfold mbind, Py_bind.
  rewrite (eval_sig_kw_params_eq _ _ _ _ _ Hsig). simpl.
  unfold lift_outcome. by destruct (Signature_replace _ _).
Qed.

Lemma setattr___signature___Returned obj sig w w' :
  setattr___signature__ obj sig w = (Returned tt, w') →
  ∃ l f, obj = FuncRef l ∧ functions w !! l = Some (Function f) ∧
         functions w' = <[l := Function (set___signature__ sig f)]> (functions w) ∧
         classes w' = classes w ∧ log w' = log w ∧
         signature_of obj w' = Returned sig.
Proof.
  unfold setattr___signature__. destruct obj as [l|]; [|done].
  destruct (functions w !! l) as [[f|?]|] eqn:Hl; try done.
  intros [= <-]. exists l, f. split_and!; try done.
  unfold signature_of, inspect_signature. simpl. by rewrite lookup_insert_eq.
Qed.

Lemma setattr___signature___cases obj sig w :
  (∃ w', setattr___signature__ obj sig w = (Returned tt, w')) ∨
  setattr___signature__ obj sig w = (Raised AttributeError, w).
Proof.
  unfold setattr___signature__. destruct obj as [l|]; [|by right].
  destruct (functions w !! l) as [[f|?]|]; [left; by eexists|by right..].
Qed.

(** The decoration with one receiver. *)
Lemma decorate_single passing_func receiver_func keep w psig rsig :
  signature_of passing_func w = Returned psig →
  signature_of receiver_func w = Returned rsig →
  decorate [receiver_func] keep passing_func w =
  let w1 := world_after_merge psig receiver_func rsig keep w in
  match Signature_replace psig (Dict.values (merged_mapping psig rsig keep)) with
  | Returned sig' =>
      match setattr___signature__ passing_func sig' w1 with
      | (Returned _, w') => (Returned passing_func, w')
      | (Raised e, w') => (Raised e, w')
      end
  | Raised e => (Raised e, w1)
  end.
Proof.
  intros Hp Hr. rewrite decorate_eq. unfold passes_kws_to__func, mbind, Py_bind.
  rewrite inspect_signature_eq, Hp.
  fold (@mbind Py _). rewrite (passes_kws_to_loop_cons _ _ _ _ _ _ Hr). simpl.
  by destruct (Signature_replace _ _).
Qed.

(** The scan finds the variadic-keyword parameter of a signature that has
    exactly one, and the merge pops it. *)
Lemma find_var_kw_key_unique sig var_kw :
  var_kw ∈ parameters sig → param_kind var_kw = VAR_KEYWORD →
  (∀ p, p ∈ parameters sig → param_kind p = VAR_KEYWORD → p = var_kw) →
  find_var_kw_key (dict_of_signature sig) = Some (param_name var_kw).
Proof.
  intros Hin Hkind Huniq.
  destruct (find_var_kw_key (dict_of_signature sig)) as [k|] eqn:Hk.
  - apply find_var_kw_key_Some in Hk as (p & [Hp ->]%elem_of_dict_of_signature & Hpk).
    by rewrite (Huniq p Hp Hpk).
  - exfalso. rewrite find_var_kw_key_None in Hk.
    apply (Hk (param_name var_kw, var_kw)); [|done].
    by apply elem_of_dict_of_signature.
Qed.

Lemma popped_var_kw_unique sig var_kw :
  wf_signature sig →
  var_kw ∈ parameters sig → param_kind var_kw = VAR_KEYWORD →
  (∀ p, p ∈ parameters sig → param_kind p = VAR_KEYWORD → p = var_kw) →
  popped_var_kw sig = Some var_kw ∧
  working_params sig = Dict.remove (param_name var_kw) (dict_of_signature sig) ∧
  param_name var_kw ∉ Dict.keys (working_params sig).
Proof.
  intros Hwf Hin Hkind Huniq.
  pose proof (find_var_kw_key_unique _ _ Hin Hkind Huniq) as Hk.
  destruct (working_params_var_kw _ _ Hk) as (Hw & p & Hpop & Hp & Hn).
  assert (NoDup (Dict.keys (dict_of_signature sig))) as Hnd
    by (by rewrite keys_dict_of_signature).
  split_and!; [|done|].
  - unfold popped_var_kw in *. rewrite Hk in *.
    destruct (Dict.contains _ _); [|done].
    apply elem_of_get; [done|]. by apply elem_of_dict_of_signature.
  - rewrite Hw. by apply keys_remove_NoDup.
Qed.

Lemma disjoint_Forall {A} (l1 l2 : list A) : Forall (λ x, x ∉ l2) l1 → l1 ## l2.
Proof. intros Hall x Hx. by apply (proj1 (Forall_forall _ _) Hall). Qed.

(** Disjointness of concrete lists of names, by computation. *)
Ltac solve_disjoint :=
  apply disjoint_Forall; apply (bool_decide_unpack _); vm_compute; exact I.

(** Well-formedness of a concrete signature, by computation. *)
Ltac solve_wf :=
  unfold wf_signature; apply (bool_decide_unpack _); vm_compute; exact I.

Lemma filter_ext_elem_of {A} (P1 P2 : A → Prop)
    `{!∀ x, Decision (P1 x), !∀ x, Decision (P2 x)} (l : list A) :
  (∀ x, x ∈ l → P1 x ↔ P2 x) → filter P1 l = filter P2 l.
Proof.
  induction l as [|x l IH]; intros Hext; [done|].
  rewrite !filter_cons.
  rewrite IH by (intros y Hy; apply Hext; by right).
  destruct (decide (P1 x)) as [H1|H1], (decide (P2 x)) as [H2|H2]; try done.
  - exfalso. apply H2, Hext; [left|done].
  - exfalso. apply H1, Hext; [left|done].
Qed.

(** With disjoint names every receiver parameter that has a default is
    selected. *)
Lemma length_to_params_disjoint passing_sig receiver_sig :
  names passing_sig ## names receiver_sig →
  length (to_params passing_sig receiver_sig)
  = length (filter (λ p, has_default p) (parameters receiver_sig)).
Proof.
  intros Hdisj. rewrite length_to_params. f_equal.
  apply filter_ext_elem_of. intros val Hval.
  unfold selected, has_default.
  assert (Dict.contains (param_name val) (working_params passing_sig) = false)
    as ->; [|by rewrite andb_true_r].
  apply contains_false. intros Hin%working_params_keys.
  apply (Hdisj (param_name val)); [done|].
  apply list_elem_of_fmap. by exists val.
Qed.

Lemma keys_to_params_subseteq passing_sig receiver_sig :
  Dict.keys (to_params passing_sig receiver_sig) ⊆ names receiver_sig.
Proof.
  rewrite keys_to_params.
  intros k (val & -> & [_ Hin]%list_elem_of_filter)%list_elem_of_fmap.
  apply list_elem_of_fmap. by exists val.
Qed.

Lemma length_widen (d : Dict.t string Param) : length (widen d) = length d.
Proof. unfold widen. by rewrite length_fmap. Qed.

Lemma length_values {K V} (d : Dict.t K V) : length (Dict.values d) = length d.
Proof. unfold Dict.values. by rewrite length_fmap. Qed.

(** A merge that keeps the variadic-keyword parameter and whose mapping
    rebuilds into a signature found such a parameter to keep. *)
Lemma keep_rebuilt_has_var_kw passing_sig receiver_sig sig' :
  Signature_replace passing_sig
    (Dict.values (merged_mapping passing_sig receiver_sig true)) = Returned sig' →
  ∃ k p, find_var_kw_key (dict_of_signature passing_sig) = Some k ∧
         popped_var_kw passing_sig = Some p ∧ p ∈ parameters passing_sig ∧
         param_name p = k ∧ has_var_kw passing_sig = true.
Proof.
  intros Hrep.
  destruct (find_var_kw_key (dict_of_signature passing_sig)) as [k|] eqn:Hk.
  - destruct (working_params_var_kw _ _ Hk) as (_ & p & Hpop & Hp & Hn).
    exists k, p. split_and!; try done.
    destruct (has_var_kw passing_sig) eqn:Hv; [done|].
    apply find_var_kw_key_has_var_kw in Hv. congruence.
  - exfalso. eapply Signature_replace_None; [|exact Hrep].
    apply find_var_kw_key_has_var_kw in Hk as Hno.
    destruct (working_params_no_var_kw _ Hno) as [_ Hpop].
    unfold merged_mapping. rewrite Hk, Hpop, setitem_absent.
    + unfold Dict.values. rewrite fmap_app. apply elem_of_app. right. left.
    + rewrite keys_widen. by intros (? & [=] & _)%list_elem_of_fmap.
Qed.

(** ** What the effects leave untouched *)

Lemma frame_refl w : frame w w.
Proof. done. Qed.

Lemma frame_trans w1 w2 w3 : frame w1 w2 → frame w2 w3 → frame w1 w3.
Proof.
  intros [Hc1 Hf1] [Hc2 Hf2]. split; [congruence|].
  intros l. by rewrite Hf2, Hf1.
Qed.

Lemma frame_insert_signature w l f s :
  functions w !! l = Some (Function f) →
  frame w {| functions := <[l := Function (set___signature__ s f)]> (functions w);
             classes := classes w; log := log w |}.
Proof.
  intros Hl. split; [done|]. intros l'. simpl.
  destruct (decide (l = l')) as [<-|Hne].
  - by rewrite lookup_insert_eq, Hl.
  - by rewrite lookup_insert_ne.
Qed.

Lemma store_mutated_frame obj ps w : frame w (store_mutated obj ps w).2.
Proof.
  unfold store_mutated. destruct obj as [l|]; [|done].
  destruct (functions w !! l) as [[f|?]|] eqn:Hl; try done.
  destruct (__signature__ f); [|done]. by apply frame_insert_signature.
Qed.

Lemma store_mutated_log obj ps w : log (store_mutated obj ps w).2 = log w.
Proof.
  unfold store_mutated. destruct obj as [l|]; [|done].
  destruct (functions w !! l) as [[f|?]|]; try done.
  by destruct (__signature__ f).
Qed.

Lemma setattr___signature___frame obj sig w :
  frame w (setattr___signature__ obj sig w).2.
Proof.
  unfold setattr___signature__. destruct obj as [l|]; [|done].
  destruct (functions w !! l) as [[f|?]|] eqn:Hl; try done.
  by apply frame_insert_signature.
Qed.

Lemma setattr___signature___log obj sig w :
  log (setattr___signature__ obj sig w).2 = log w.
Proof.
  unfold setattr___signature__. destruct obj as [l|]; [|done].
  by destruct (functions w !! l) as [[f|?]|].
Qed.

Lemma world_after_merge_frame passing_sig receiver_func rsig keep w :
  frame w (world_after_merge passing_sig receiver_func rsig keep w).
Proof.
  unfold world_after_merge.
  destruct (keep && _); [|apply store_mutated_frame].
  eapply frame_trans; [apply store_mutated_frame|]. done.
Qed.

Lemma frame_is_function obj w w' : frame w w' → is_function obj w → is_function obj w'.
Proof.
  intros [_ Hf] (l & f & -> & Hl). specialize (Hf l). rewrite Hl in Hf.
  destruct (functions w' !! l) as [[f'|?]|] eqn:Hl'; simpl in Hf; try done.
  by exists l, f'.
Qed.

Lemma setattr___signature___is_function obj sig w :
  is_function obj w →
  ∃ w', setattr___signature__ obj sig w = (Returned tt, w').
Proof.
  intros (l & f & -> & Hl). unfold setattr___signature__. rewrite Hl. by eexists.
Qed.

(** The reclassification neither makes nor unmakes a variadic-keyword
    parameter. *)
Lemma to_keyword_only_is_var_kw val : is_var_kw (to_keyword_only val) = is_var_kw val.
Proof. by destruct val as [n [] d]. Qed.

Lemma mutated_params_no_var_kw passing_sig rsig :
  has_var_kw rsig = false →
  forallb (λ v, negb (is_var_kw v)) (mutated_params passing_sig rsig) = true.
Proof.
  unfold has_var_kw, mutated_params.
  induction (parameters rsig) as [|p ps IH]; [done|].
  rewrite fmap_cons. cbn [existsb forallb].
  intros [Hp Hps]%orb_false_elim. rewrite (IH Hps), andb_true_r.
  destruct (selected _ p); [rewrite to_keyword_only_is_var_kw|]; by rewrite Hp.
Qed.

(** Under [keep_from_var_kw], a receiver without variadic-keyword parameter
    makes the merge log exactly one warning. *)
Lemma world_after_merge_log_warning passing_sig receiver_func rsig w :
  has_var_kw rsig = false →
  log (world_after_merge passing_sig receiver_func rsig true w)
  = log w ++ [Warning receiver_func (mutated_params passing_sig rsig)].
Proof.
  intros Hno. unfold world_after_merge.
  rewrite mutated_params_no_var_kw by done. simpl. by rewrite store_mutated_log.
Qed.

Lemma world_after_merge_log_silent passing_sig receiver_func rsig w :
  log (world_after_merge passing_sig receiver_func rsig false w) = log w.
Proof. unfold world_after_merge. simpl. apply store_mutated_log. Qed.

(** ** When the rebuilt signature passes validation *)

Lemma kind_value_inj k1 k2 : kind_value k1 = kind_value k2 → k1 = k2.
Proof. by destruct k1, k2. Qed.

Lemma validate_step_top st p st' :
  validate_step st (Some p) = Returned st' →
  kind_value (top_kind st) ≤ kind_value (param_kind p) ∧
  top_kind st' = param_kind p.
Proof.
  unfold validate_step. case_decide as Hlt; [done|].
  destruct (decide (kind_value (top_kind st) < kind_value (param_kind p)))
    as [Hgt|Hge].
  - destruct (_ && _ && _); [done|]. case_bool_decide; [done|].
    intros [= <-]. simpl. split; [lia|done].
  - destruct (_ && _ && _); [done|]. case_bool_decide; [done|].
    intros [= <-]. simpl. split; [lia|]. apply kind_value_inj. lia.
Qed.

(** A keyword-only or variadic-keyword parameter whose kind is not below
    the kinds seen and whose name is new passes a turn of the loop. *)
Lemma validate_step_keyword st q :
  param_kind q = KEYWORD_ONLY ∨ param_kind q = VAR_KEYWORD →
  kind_value (top_kind st) ≤ kind_value (param_kind q) →
  param_name q ∉ param_name <$> params st →
  ∃ st', validate_step st (Some q) = Returned st' ∧
         top_kind st' = param_kind q ∧ params st' = params st ++ [q].
Proof.
  intros Hkind Hle Hname. unfold validate_step.
  rewrite decide_False by lia.
  destruct (if decide (_ < _) then _ else _) as [kd tk] eqn:Hif.
  rewrite (bool_decide_eq_false_2 (_ ∨ _))
    by (intros [Hk|Hk]; destruct Hkind as [Hk'|Hk']; congruence).
  simpl. rewrite bool_decide_eq_false_2 by done.
  eexists. split; [done|]. simpl. split; [|done].
  case_decide; [congruence|]. injection Hif as _ <-. apply kind_value_inj. lia.
Qed.

Lemma validate_app st l1 l2 :
  validate st (l1 ++ l2) =
  match validate st l1 with
  | Returned st1 => validate st1 l2
  | Raised e => Raised e
  end.
Proof.
  revert st. induction l1 as [|p l1 IH]; intros st; simpl; [done|].
  by destruct (validate_step st p).
Qed.

Lemma validate_lower_bound st l st' :
  validate st (Some <$> l) = Returned st' →
  ∀ q, q ∈ l → kind_value (top_kind st) ≤ kind_value (param_kind q).
Proof.
  revert st. induction l as [|p l IH]; intros st.
  - by intros _ q ?%elem_of_nil.
  - rewrite fmap_cons. cbn [validate].
    destruct (validate_step st (Some p)) as [st1|] eqn:Hstep; [|done].
    apply validate_step_top in Hstep as [Hle Htop].
    intros Hv q [->|Hq]%elem_of_cons; [done|].
    specialize (IH _ Hv q Hq). rewrite Htop in IH. lia.
Qed.

Lemma validate_upper_bound st l st' n :
  validate st (Some <$> l) = Returned st' →
  kind_value (top_kind st) ≤ n →
  (∀ q, q ∈ l → kind_value (param_kind q) ≤ n) →
  kind_value (top_kind st') ≤ n.
Proof.
  revert st. induction l as [|p l IH]; intros st.
  - by intros [= ->].
  - rewrite fmap_cons. cbn [validate].
    destruct (validate_step st (Some p)) as [st1|] eqn:Hstep; [|done].
    apply validate_step_top in Hstep as [Hle Htop].
    intros Hv Hst Hall. apply (IH _ Hv).
    + rewrite Htop. apply Hall. left.
    + intros q Hq. apply Hall. by right.
Qed.

Lemma validate_params_eq st l st' :
  validate st (Some <$> l) = Returned st' → params st' = params st ++ l.
Proof.
  intros Hv%validate_params. rewrite <-fmap_app in Hv.
  by apply (inj (fmap Some)) in Hv.
Qed.

Lemma validate_keyword_only st qs :
  Forall (λ q, param_kind q = KEYWORD_ONLY) qs →
  kind_value (top_kind st) ≤ 3 →
  NoDup (param_name <$> (params st ++ qs)) →
  ∃ st', validate st (Some <$> qs) = Returned st' ∧
         params st' = params st ++ qs ∧ kind_value (top_kind st') ≤ 3.
Proof.
  revert st. induction qs as [|q qs IH]; intros st Hall Htop Hnd.
  - exists st. by rewrite app_nil_r.
  - rewrite fmap_cons. cbn [validate].
    apply Forall_cons in Hall as [Hq Hall].
    destruct (validate_step_keyword st q) as (st1 & -> & Htop1 & Hps1).
    + by left.
    + rewrite Hq. simpl. lia.
    + rewrite fmap_app in Hnd. apply NoDup_app in Hnd as (_ & Hdisj & _).
      intros Hin. apply (Hdisj _ Hin). left.
    + destruct (IH st1) as (st' & Hv & Hps & Htop').
      * done.
      * rewrite Htop1, Hq. simpl. lia.
      * by rewrite Hps1, <-app_assoc.
      * exists st'. split_and!; [done| |done]. by rewrite Hps, Hps1, <-app_assoc.
Qed.

Lemma valid_signature_wf sig : valid_signature sig → wf_signature sig.
Proof.
  unfold valid_signature, Signature_new.
  destruct (validate _ _) as [st|] eqn:Hv; [|done].
  intros [= <-]. apply validate_NoDup in Hv; [done|apply NoDup_nil_2].
Qed.

(** In a valid signature with one variadic-keyword parameter, that
    parameter stands last. *)
Lemma valid_signature_var_kw_last sig v :
  valid_signature sig →
  v ∈ parameters sig → param_kind v = VAR_KEYWORD →
  (∀ p, p ∈ parameters sig → param_kind p = VAR_KEYWORD → p = v) →
  ∃ ps0, parameters sig = ps0 ++ [v].
Proof.
  intros Hvalid Hin Hkind Huniq.
  pose proof (valid_signature_wf _ Hvalid) as Hwf.
  apply list_elem_of_split in Hin as (l1 & l2 & Hsplit).
  exists l1. rewrite Hsplit. f_equal. f_equal.
  destruct l2 as [|q l2]; [done|]. exfalso.
  unfold valid_signature, Signature_new in Hvalid.
  destruct (validate _ _) as [st|] eqn:Hv; [|done]. clear Hvalid.
  rewrite Hsplit, fmap_app, validate_app in Hv.
  destruct (validate _ (Some <$> l1)) as [st1|]; [|done].
  rewrite fmap_cons in Hv. cbn [validate] in Hv.
  destruct (validate_step st1 (Some v)) as [st2|] eqn:Hstep; [|done].
  apply validate_step_top in Hstep as [_ Htop].
  pose proof (validate_lower_bound _ _ _ Hv q ltac:(left)) as Hle.
  rewrite Htop, Hkind in Hle.
  assert (param_kind q = VAR_KEYWORD) as Hq.
  { apply kind_value_inj. destruct (param_kind q); simpl in *; lia. }
  assert (q = v) as ->.
  { apply Huniq; [|done]. rewrite Hsplit. apply elem_of_app. right. right. left. }
  unfold wf_signature in Hwf. rewrite Hsplit, fmap_app in Hwf.
  apply NoDup_app in Hwf as (_ & _ & Hnd). simpl in Hnd.
  apply NoDup_cons in Hnd as [Hnotin _]. apply Hnotin. left.
Qed.

Lemma remove_snoc_absent {K V} `{EqDecision K} (d : Dict.t K V) k v :
  k ∉ Dict.keys d → Dict.remove k (d ++ [(k, v)]) = d.
Proof.
  induction d as [|[k' v'] d IH]; simpl.
  - intros _. by rewrite decide_True.
  - intros [Hne Hk]%not_elem_of_cons. rewrite decide_False by done.
    by rewrite IH.
Qed.

Lemma names_values_to_params passing_sig receiver_sig :
  param_name <$> Dict.values (to_params passing_sig receiver_sig)
  = Dict.keys (to_params passing_sig receiver_sig).
Proof.
  unfold Dict.values, Dict.keys, to_params. rewrite <-!list_fmap_compose.
  apply list_fmap_ext. intros _ val _. simpl. apply to_keyword_only_name.
Qed.

Lemma elem_of_values_to_params passing_sig receiver_sig q :
  q ∈ Dict.values (to_params passing_sig receiver_sig) →
  ∃ val, q = to_keyword_only val ∧ val ∈ parameters receiver_sig ∧
         param_default val ≠ None ∧
         param_name val ∉ Dict.keys (working_params passing_sig).
Proof.
  unfold Dict.values, to_params. rewrite <-list_fmap_compose.
  intros (val & -> & [Hsel Hin]%list_elem_of_filter)%list_elem_of_fmap.
  exists val. split_and!; [done..| |].
  - unfold selected in Hsel. apply andb_prop_elim in Hsel as [Hd _].
    by apply bool_decide_unpack in Hd.
  - unfold selected in Hsel. apply andb_prop_elim in Hsel as [_ Hc].
    apply negb_prop_elim in Hc. intros Hin'%contains_true.
    apply Hc. by rewrite Hin'.
Qed.

(** The merge that keeps the variadic-keyword parameter rebuilds into a
    signature when the passing signature is valid with one such parameter
    and the receiver parameters that have a default can be reclassified
    and do not bear its name: the passing parameters, then the merged
    ones, then the variadic-keyword parameter. *)
Lemma rebuild_keep_success psig rsig v :
  valid_signature psig → wf_signature rsig →
  v ∈ parameters psig → param_kind v = VAR_KEYWORD →
  (∀ p, p ∈ parameters psig → param_kind p = VAR_KEYWORD → p = v) →
  (∀ val, val ∈ parameters rsig → param_default val ≠ None →
          param_kind val = POSITIONAL_OR_KEYWORD ∨ param_kind val = KEYWORD_ONLY) →
  (∀ val, val ∈ parameters rsig → param_default val ≠ None →
          param_name val ≠ param_name v) →
  ∃ ps0, parameters psig = ps0 ++ [v] ∧
    Signature_replace psig (Dict.values (merged_mapping psig rsig true))
    = Returned {| parameters := ps0 ++ Dict.values (to_params psig rsig) ++ [v];
                  return_annotation := return_annotation psig |}.
Proof.
  intros Hvalid Hwfr Hin Hkind Huniq Hkinds Hnames.
  pose proof (valid_signature_wf _ Hvalid) as Hwfp.
  destruct (valid_signature_var_kw_last _ _ Hvalid Hin Hkind Huniq) as [ps0 Hps].
  exists ps0. split; [done|].
  destruct (popped_var_kw_unique _ _ Hwfp Hin Hkind Huniq) as (Hpop & Hw & Hnotin).
  pose proof (find_var_kw_key_unique _ _ Hin Hkind Huniq) as Hkey.
  assert (NoDup (param_name <$> ps0) ∧ param_name v ∉ param_name <$> ps0)
    as [Hnd0 Hv0].
  { unfold wf_signature in Hwfp. rewrite Hps, fmap_app in Hwfp.
    apply NoDup_app in Hwfp as (Hnd & Hdisj & _). split; [done|].
    intros Hv. apply (Hdisj _ Hv). left. }
  assert (working_params psig = (λ p, (param_name p, p)) <$> ps0) as Hw0.
  { rewrite Hw. unfold dict_of_signature. rewrite Hps, fmap_app. simpl.
    apply remove_snoc_absent. unfold Dict.keys.
    by rewrite <-list_fmap_compose. }
  assert (Dict.values (working_params psig) = ps0) as Hvals0.
  { rewrite Hw0. unfold Dict.values. rewrite <-list_fmap_compose.
    rewrite <-(list_fmap_id ps0) at 2. by apply list_fmap_ext. }
  assert (Dict.keys (working_params psig) = param_name <$> ps0) as Hkeys0.
  { rewrite Hw0. unfold Dict.keys. by rewrite <-list_fmap_compose. }
  assert (param_name v ∉ Dict.keys (to_params psig rsig)) as Hvtp.
  { rewrite <-names_values_to_params.
    intros (q & Hq & Hqin)%list_elem_of_fmap.
    apply elem_of_values_to_params in Hqin as (val & -> & Hval & Hdef & _).
    rewrite to_keyword_only_name in Hq. by eapply Hnames. }
  assert (Dict.values (merged_mapping psig rsig true)
          = Some <$> (ps0 ++ Dict.values (to_params psig rsig) ++ [v])) as ->.
  { rewrite merged_mapping_keep by done. rewrite Hkey, Hpop, setitem_absent.
    - unfold Dict.values at 1. rewrite fmap_app. fold (Dict.values (widen (working_params psig ++ (to_params psig rsig)))).
      rewrite values_widen. unfold Dict.values at 1. rewrite fmap_app.
      fold (Dict.values (working_params psig)). fold (Dict.values (to_params psig rsig)).
      rewrite Hvals0. simpl. by rewrite !fmap_app, <-app_assoc.
    - rewrite keys_widen. intros (k & [= <-] & Hk)%list_elem_of_fmap.
      unfold Dict.keys in Hk. rewrite fmap_app in Hk.
      apply elem_of_app in Hk as [Hk|Hk]; [by apply Hnotin|by apply Hvtp]. }
  unfold valid_signature, Signature_new in Hvalid.
  destruct (validate _ (Some <$> parameters psig)) as [st|] eqn:Hv; [|done].
  clear Hvalid. rewrite Hps, fmap_app, validate_app in Hv.
  destruct (validate _ (Some <$> ps0)) as [st1|] eqn:Hv1; [|done]. clear Hv.
  pose proof (validate_params_eq _ _ _ Hv1) as Hps1. simpl in Hps1.
  assert (kind_value (top_kind st1) ≤ 3) as Htop1.
  { apply (validate_upper_bound _ _ _ _ Hv1); [simpl; lia|].
    intros q Hq. destruct (param_kind q) eqn:Hkq; simpl; try lia.
    exfalso. apply Hv0. rewrite <-(Huniq q); [|rewrite Hps; apply elem_of_app; by left|done].
    apply list_elem_of_fmap. by exists q. }
  destruct (validate_keyword_only st1 (Dict.values (to_params psig rsig))) as (st2 & Hv2 & Hps2 & Htop2).
  - apply Forall_forall. intros q (val & -> & Hval & Hdef & _)%elem_of_values_to_params.
    rewrite to_keyword_only_kind. destruct (Hkinds val Hval Hdef) as [-> | ->]; done.
  - done.
  - rewrite Hps1, fmap_app. apply NoDup_app. split_and!; [done| |].
    + intros k Hk. rewrite names_values_to_params. intros Hk'.
      apply (to_params_disjoint psig rsig k Hk'). by rewrite Hkeys0.
    + rewrite names_values_to_params. by apply to_params_NoDup.
  - destruct (validate_step_keyword st2 v) as (st3 & Hv3 & _ & Hps3).
    + by right.
    + rewrite Hkind. simpl. lia.
    + rewrite Hps2, Hps1, fmap_app, names_values_to_params.
      intros [?|?]%elem_of_app; [by apply Hv0|by apply Hvtp].
    + unfold Signature_replace, Signature_new.
      rewrite fmap_app, validate_app, Hv1, fmap_app, validate_app, Hv2.
      cbn [fmap list_fmap validate]. rewrite Hv3.
      by rewrite Hps3, Hps2, Hps1, <-app_assoc.
Qed.

(** Whatever the outcome of the decoration, a receiver without
    variadic-keyword parameter makes it log exactly one warning under
    [keep_from_var_kw]. *)
Lemma decorate_keep_log passing_func receiver_func w psig rsig :
  signature_of passing_func w = Returned psig →
  signature_of receiver_func w = Returned rsig →
  has_var_kw rsig = false →
  log (decorate [receiver_func] true passing_func w).2
  = log w ++ [Warning receiver_func (mutated_params psig rsig)].
Proof.
  intros Hp Hr Hno. rewrite (decorate_single _ _ _ _ _ _ Hp Hr). simpl.
  rewrite <-(world_after_merge_log_warning psig receiver_func rsig w Hno).
  destruct (Signature_replace _ _) as [sig'|e]; [|done].
  rewrite <-(setattr___signature___log passing_func sig'
               (world_after_merge psig receiver_func rsig true w)).
  by destruct (setattr___signature__ _ _ _) as [[[]|?] ?].
Qed.

(** ** Frames of the computations *)

Lemma framed_ret {A} (a : A) : framed (mret a).
Proof. intros w. apply frame_refl. Qed.

Lemma framed_bind {A B} (m : Py A) (k : A → Py B) :
  framed m → (∀ a, framed (k a)) → framed (m ≫= k).
Proof.
  intros Hm Hk w. unfold mbind, Py_bind. specialize (Hm w).
  destruct (m w) as [[a|e] w1]; [|done].
  eapply frame_trans; [exact Hm|apply Hk].
Qed.

Lemma framed_inspect_signature obj : framed (inspect_signature obj).
Proof. intros w. rewrite inspect_signature_world. apply frame_refl. Qed.

Lemma framed_lift_outcome {A} (o : outcome A) : framed (lift_outcome o).
Proof. intros w. apply frame_refl. Qed.

Lemma framed_get_world : framed get_world.
Proof. intros w. apply frame_refl. Qed.

Lemma framed_setattr___signature__ obj sig : framed (setattr___signature__ obj sig).
Proof. intros w. apply setattr___signature___frame. Qed.

Lemma framed_eval_sig_kw_params passing_sig receiver_func keep :
  framed (eval_sig_kw_params passing_sig receiver_func keep).
Proof.
  intros w. destruct (signature_of receiver_func w) as [rsig|e] eqn:Hr.
  - rewrite (eval_sig_kw_params_eq _ _ _ _ _ Hr). apply world_after_merge_frame.
  - rewrite (eval_sig_kw_params_raises _ _ _ _ _ Hr). apply frame_refl.
Qed.

Lemma framed_passes_kws_to_loop passing_sig receiver_funcs keep :
  framed (passes_kws_to_loop passing_sig receiver_funcs keep).
Proof.
  revert passing_sig. induction receiver_funcs as [|r rs IH]; intros passing_sig.
  - apply framed_ret.
  - simpl. apply framed_bind; [apply framed_eval_sig_kw_params|]. intros res.
    apply framed_bind; [apply framed_lift_outcome|]. intros sig'. apply IH.
Qed.

Lemma framed_passes_kws_to__func receiver_funcs keep passing_func :
  framed (passes_kws_to__func receiver_funcs keep passing_func).
Proof.
  unfold passes_kws_to__func.
  apply framed_bind; [apply framed_inspect_signature|]. intros psig.
  apply framed_bind; [apply framed_passes_kws_to_loop|]. intros sig'.
  apply framed_bind; [apply framed_setattr___signature__|]. intros _.
  apply framed_ret.
Qed.

Lemma framed_super_init_pass_on_kws__func super_base keep func :
  framed (super_init_pass_on_kws__func super_base keep func).
Proof.
  unfold super_init_pass_on_kws__func.
  apply framed_bind; [apply framed_get_world|]. intros w0.
  apply framed_bind; [apply framed_inspect_signature|]. intros from_sig.
  apply framed_bind; [apply framed_eval_sig_kw_params|]. intros res.
  apply framed_bind; [apply framed_lift_outcome|]. intros sig'.
  apply framed_bind; [apply framed_setattr___signature__|]. intros _.
  apply framed_ret.
Qed.

Lemma returns_only_ret {A} (a : A) : returns_only (mret a) a.
Proof. intros w. by left. Qed.

Lemma returns_only_bind {A B} (m : Py A) (k : A → Py B) (b : B) :
  (∀ a, returns_only (k a) b) → returns_only (m ≫= k) b.
Proof.
  intros Hk w. unfold mbind, Py_bind.
  destruct (m w) as [[a|e] w1]; [apply Hk|right; by exists e].
Qed.

Lemma returns_only_passes_kws_to__func receiver_funcs keep passing_func :
  returns_only (passes_kws_to__func receiver_funcs keep passing_func) passing_func.
Proof.
  unfold passes_kws_to__func. do 3 (apply returns_only_bind; intros ?).
  apply returns_only_ret.
Qed.

Lemma returns_only_super_init_pass_on_kws__func super_base keep func :
  returns_only (super_init_pass_on_kws__func super_base keep func) func.
Proof.
  unfold super_init_pass_on_kws__func. do 5 (apply returns_only_bind; intros ?).
  apply returns_only_ret.
Qed.

(** ** What a merge keeps and what it adds *)

Lemma param_named_elem_of sig p :
  wf_signature sig → p ∈ parameters sig → param_named (param_name p) sig = Some p.
Proof.
  intros Hwf Hp. apply elem_of_get.
  - by rewrite keys_dict_of_signature.
  - by apply elem_of_dict_of_signature.
Qed.

Lemma param_named_Some sig n p :
  param_named n sig = Some p → p ∈ parameters sig ∧ param_name p = n.
Proof. by intros [? ->]%get_elem_of%elem_of_dict_of_signature. Qed.

Lemma param_named_None sig n : param_named n sig = None ↔ n ∉ names sig.
Proof. unfold param_named. by rewrite get_None, keys_dict_of_signature. Qed.

(** A parameter of the passing signature stays in the mapping under its
    name, unless it is the variadic-keyword parameter and is dropped. *)
Lemma merge_get_passing psig rsig keep x :
  wf_signature psig → wf_signature rsig →
  x ∈ parameters psig → param_kind x ≠ VAR_KEYWORD ∨ keep = true →
  Dict.get (Some (param_name x)) (merged_mapping psig rsig keep) = Some (Some x).
Proof.
  intros Hwfp Hwfr Hx Hkeep.
  pose proof (param_named_elem_of _ _ Hwfp Hx) as Hget. unfold param_named in Hget.
  assert (NoDup (Dict.keys (dict_of_signature psig))) as Hnd
    by (by rewrite keys_dict_of_signature).
  destruct (find_var_kw_key (dict_of_signature psig)) as [k|] eqn:Hk.
  - destruct (working_params_var_kw _ _ Hk) as (Hw & q & Hpop & Hq & Hn).
    destruct (decide (k = param_name x)) as [->|Hne].
    + (* [x] is the popped parameter *)
      assert (popped_var_kw psig = Some x) as Hpopx.
      { unfold popped_var_kw. rewrite Hk.
        destruct (Dict.contains _ _) eqn:Hc; [done|].
        apply contains_false in Hc. by apply get_None in Hc; congruence. }
      destruct Hkeep as [Hkind| ->].
      * exfalso. apply find_var_kw_key_Some in Hk as (q' & Hq' & Hkq').
        apply (elem_of_get _ _ _ Hnd) in Hq'. congruence.
      * rewrite merged_mapping_keep, Hk, Hpopx by done. apply get_setitem.
    + assert (Dict.get (Some (param_name x))
                (widen (working_params psig ++ to_params psig rsig))
              = Some (Some x)) as Hin.
      { rewrite get_widen, get_app, Hw, get_remove_ne, Hget by done. done. }
      destruct keep.
      * rewrite merged_mapping_keep, Hk by done.
        rewrite get_setitem_ne by congruence. done.
      * by rewrite merged_mapping_drop.
  - apply find_var_kw_key_has_var_kw in Hk as Hno.
    destruct (working_params_no_var_kw _ Hno) as [Hw Hpop].
    assert (Dict.get (Some (param_name x))
              (widen (working_params psig ++ to_params psig rsig))
            = Some (Some x)) as Hin.
    { by rewrite get_widen, get_app, Hw, Hget. }
    destruct keep.
    + rewrite merged_mapping_keep, Hk by done. by rewrite get_setitem_ne.
    + by rewrite merged_mapping_drop.
Qed.

(** A receiver parameter with a default and a name the passing signature
    does not have stands in the mapping, reclassified. *)
Lemma merge_get_receiver psig rsig keep val :
  wf_signature rsig →
  val ∈ parameters rsig → param_default val ≠ None →
  param_name val ∉ names psig →
  Dict.get (Some (param_name val)) (merged_mapping psig rsig keep)
  = Some (Some (to_keyword_only val)).
Proof.
  intros Hwfr Hval Hdef Hname.
  assert (param_name val ∉ Dict.keys (working_params psig)) as Hnotin.
  { intros Hin. by apply Hname, working_params_keys. }
  assert (selected (working_params psig) val = true) as Hsel.
  { unfold selected. rewrite bool_decide_eq_true_2 by done.
    apply contains_false in Hnotin. by rewrite Hnotin. }
  assert (Dict.get (Some (param_name val))
            (widen (working_params psig ++ to_params psig rsig))
          = Some (Some (to_keyword_only val))) as Hget.
  { rewrite get_widen, get_app. apply get_None in Hnotin. rewrite Hnotin.
    erewrite elem_of_get; [done|by apply to_params_NoDup|].
    by apply elem_of_to_params. }
  destruct keep.
  - rewrite merged_mapping_keep by done.
    destruct (find_var_kw_key (dict_of_signature psig)) as [k|] eqn:Hk.
    + rewrite get_setitem_ne; [done|]. intros [= ->]. apply Hname.
      destruct (working_params_var_kw _ _ Hk) as (_ & q & _ & Hq & <-).
      apply list_elem_of_fmap. by exists q.
    + by rewrite get_setitem_ne.
  - by rewrite merged_mapping_drop.
Qed.

(** What the mapping holds under the name of a parameter, the rebuilt
    signature holds. *)
Lemma rebuilt_param_named psig d sig' x :
  Signature_replace psig (Dict.values d) = Returned sig' →
  Dict.get (Some (param_name x)) d = Some (Some x) →
  param_named (param_name x) sig' = Some x.
Proof.
  intros (Hvals & _ & Hwf)%Signature_replace_Returned Hget%get_elem_of.
  apply param_named_elem_of; [done|].
  assert (Some x ∈ Some <$> parameters sig') as (y & [= <-] & Hy)%list_elem_of_fmap;
    [|done].
  rewrite Hvals. apply list_elem_of_fmap. by exists (Some (param_name x), Some x).
Qed.

(** ** Signatures after a merge *)

Lemma reclassified_refl s : reclassified s s.
Proof. apply Forall2_same_length_lookup_2; [done|]. intros i p p' ? ?. left. congruence. Qed.

Lemma reclassified_mutated psig rsig ret :
  reclassified rsig {| parameters := mutated_params psig rsig;
                       return_annotation := ret |}.
Proof.
  unfold reclassified, mutated_params. simpl.
  induction (parameters rsig) as [|p ps IH]; [constructor|].
  rewrite fmap_cons. constructor; [|done].
  destruct (selected _ p); auto.
Qed.

Lemma reclassified_names s s' : reclassified s s' → names s' = names s.
Proof.
  unfold reclassified, names. induction 1 as [|p p' ps ps' Hp _ IH]; [done|].
  rewrite !fmap_cons, IH. f_equal.
  destruct Hp as [-> | ->]; [done|apply to_keyword_only_name].
Qed.

Lemma reclassified_elem_of s s' p :
  reclassified s s' → p ∈ parameters s →
  ∃ p', p' ∈ parameters s' ∧ (p' = p ∨ p' = to_keyword_only p).
Proof.
  unfold reclassified. induction 1 as [|q q' ps ps' Hq _ IH].
  - by intros ?%elem_of_nil.
  - intros [->|Hp]%elem_of_cons.
    + exists q'. split; [left|done].
    + destruct (IH Hp) as (p' & Hp' & Hrel). exists p'. split; [by right|done].
Qed.

Lemma world_after_merge_functions psig receiver_func rsig keep w :
  functions (world_after_merge psig receiver_func rsig keep w)
  = functions (store_mutated receiver_func (mutated_params psig rsig) w).2.
Proof. unfold world_after_merge. by destruct (keep && _). Qed.

Lemma signature_of_FuncRef l w :
  signature_of (FuncRef l) w =
  match functions w !! l with
  | Some (Function f) =>
      Returned (match __signature__ f with
                | Some s => s
                | None => co_declared (__code__ f)
                end)
  | Some (BuiltinFunction (Some s)) => Returned s
  | Some (BuiltinFunction None) => Raised ValueError
  | None => Raised TypeError
  end.
Proof.
  unfold signature_of, inspect_signature.
  destruct (functions w !! l) as [[f|[?|]]|]; try done.
  by destruct (__signature__ f).
Qed.

(** After a merge every callable has the signature it had, up to the
    reclassification of parameters the merge did in place. *)
Lemma signature_of_after_merge psig receiver_func rsig keep w obj s :
  signature_of receiver_func w = Returned rsig →
  signature_of obj w = Returned s →
  ∃ s', signature_of obj (world_after_merge psig receiver_func rsig keep w)
        = Returned s' ∧ reclassified s s'.
Proof.
  intros Hr Hs.
  destruct obj as [l|]; [|exists s; split; [done|apply reclassified_refl]].
  rewrite signature_of_FuncRef in *.
  rewrite world_after_merge_functions. unfold store_mutated.
  destruct receiver_func as [lr|];
    [|exists s; split; [exact Hs|apply reclassified_refl]].
  rewrite signature_of_FuncRef in Hr.
  destruct (functions w !! lr) as [[fr|?]|] eqn:Hlr;
    try (exists s; split; [exact Hs|apply reclassified_refl]).
  destruct (__signature__ fr) as [sr|] eqn:Hsr;
    [|exists s; split; [exact Hs|apply reclassified_refl]].
  injection Hr as ->. simpl.
  destruct (decide (lr = l)) as [->|Hne].
  - rewrite lookup_insert_eq. simpl. rewrite Hlr, Hsr in Hs. injection Hs as ->.
    eexists. split; [done|]. apply reclassified_mutated.
  - rewrite lookup_insert_ne by done.
    exists s. split; [exact Hs|apply reclassified_refl].
Qed.

(** Assigning to a key that is present replaces the value where the key
    stands. *)
Lemma setitem_present_split {K V} `{EqDecision K} (d1 d2 : Dict.t K V) k v0 v :
  k ∉ Dict.keys d1 →
  Dict.setitem k v (d1 ++ (k, v0) :: d2) = d1 ++ (k, v) :: d2.
Proof.
  induction d1 as [|[k' v'] d1 IH]; simpl.
  - intros _. by rewrite decide_True.
  - intros [Hne Hk]%not_elem_of_cons. rewrite decide_False by done.
    by rewrite IH.
Qed.

Lemma widen_app (d1 d2 : Dict.t string Param) : widen (d1 ++ d2) = widen d1 ++ widen d2.
Proof. unfold widen. by rewrite fmap_app. Qed.

(** * The claims *)

Section scenarios.
Import Scenario.

(** C2 (as stated, refuted).  For [f(a, *args, **kwargs)] decorated with
    [passes_kws_to(g)], [g(a, b=1, c=2)], the advertised signature is not
    [(a, *, b=1, c=2, **kwargs)]: the parameters differ and so does the
    printed form. *)
Lemma C2_counterexample :
  let w' := (decorate [g] false f w_fg).2 in
  signature_of f w' ≠
    Returned {| parameters := [pos "a"; kw_only "b" 1; kw_only "c" 2;
                               var_kw "kwargs"];
                return_annotation := None |}
  ∧ advertised f w' ≠ Some "(a, *, b=1, c=2, **kwargs)".
Proof. split; by vm_compute. Qed.

(** C2 (amended).  Decorating [f(a, *args, **kwargs)] with
    [passes_kws_to(g)] for [g(a, b=1, c=2)] returns [f] advertising
    [(a, *args, b=1, c=2)]: [a] and [*args] are retained, [b] and [c] are
    merged in as keyword-only and [**kwargs] is dropped; with
    [keep_from_var_kw=True] it advertises [(a, *args, b=1, c=2, **kwargs)],
    the variadic-keyword parameter retained at the end. *)
Theorem C2_merged_signature :
  (let r := decorate [g] false f w_fg in
   r.1 = Returned f ∧
   signature_of f r.2 =
     Returned {| parameters := [pos "a"; var_pos "args"; kw_only "b" 1;
                                kw_only "c" 2];
                 return_annotation := None |} ∧
   advertised f r.2 = Some "(a, *args, b=1, c=2)")
  ∧
  (let r := decorate [g] true f w_fg in
   r.1 = Returned f ∧
   signature_of f r.2 =
     Returned {| parameters := [pos "a"; var_pos "args"; kw_only "b" 1;
                                kw_only "c" 2; var_kw "kwargs"];
                 return_annotation := None |} ∧
   advertised f r.2 = Some "(a, *args, b=1, c=2, **kwargs)").
Proof. by vm_compute. Qed.

(** C1 (the code at the failing input).  For [class Sub(Base)] with
    [Base.__init__(self, x, y=1)] and [Sub.__init__(self, x, z=2,
    **kwargs)], [super_init_pass_on_kws(Sub)] without [super_base] takes
    the first class of the resolution order, which is [Sub] itself, so the
    receiver is [Sub.__init__]: the advertised signature becomes
    [(self, x, z=2)], without [y].  With [super_base=Base] the same
    decorator does merge [y=1] as keyword-only. *)
Theorem C1_receiver_is_own_initializer :
  (∀ cls w, hd cls (getmro cls w) = cls) ∧
  getattr___init__ (hd Sub (getmro Sub w_classes)) w_classes
    = getattr___init__ Sub w_classes ∧
  (let r := super_init_pass_on_kws (Some Sub) None false w_classes in
   advertised (getattr___init__ Sub w_classes) r.2 = Some "(self, x, z=2)" ∧
   ∀ sig, signature_of (getattr___init__ Sub w_classes) r.2 = Returned sig →
          "y" ∉ names sig) ∧
  (let r := super_init_pass_on_kws (Some Sub) (Some Base) false w_classes in
   advertised (getattr___init__ Sub w_classes) r.2
     = Some "(self, x, z=2, *, y=1)").
Proof.
  split_and!; try by vm_compute.
  intros r. split; [by vm_compute|]. intros sig Hsig.
  assert (sig = {| parameters := [pos "self"; pos "x"; dflt "z" 2];
                   return_annotation := None |}) as ->.
  { vm_compute in Hsig. by injection Hsig. }
  by intros [[=]|[[=]|[[=]|?%elem_of_nil]%elem_of_cons]%elem_of_cons]%elem_of_cons.
Qed.

(** C3 (the code at the failing input).  The assertion of [passes_kws_to]
    tests the tuple of receivers, never a receiver: with the builtin [len]
    as receiver no [AssertionError] is raised, the merge runs and the
    decorated [f] is produced; with the builtin [max], which cannot be
    introspected, the failure is the [ValueError] of [inspect.signature]
    raised inside the merge. *)
Theorem C3_builtin_receiver_not_rejected :
  isinstance_BuiltinFunctionType w_builtins (PyCallable len) = true ∧
  isinstance_BuiltinFunctionType w_builtins (PyCallable max) = true ∧
  (∀ keep_from_var_kw,
     (passes_kws_to [len] keep_from_var_kw w_builtins).1
       = Returned (passes_kws_to__func [len] keep_from_var_kw) ∧
     (passes_kws_to [max] keep_from_var_kw w_builtins).1
       = Returned (passes_kws_to__func [max] keep_from_var_kw)) ∧
  (let r := decorate [len] false f w_builtins in
   r.1 = Returned f ∧ advertised f r.2 = Some "(a)") ∧
  (decorate [max] false f w_builtins).1 = Raised ValueError.
Proof. split_and!; by vm_compute. Qed.

End scenarios.

Section merge_claims.
Import Scenario.

(** C9.  When the passing signature has no variadic-keyword parameter and
    [keep_from_var_kw] is true, the merge returns a mapping that holds
    Python's [None] under the key [None] (its last entry); no signature can
    be rebuilt from the values of that mapping, and the decoration of a
    callable with that signature raises instead of returning. *)
Theorem C9_none_key_inserted passing_func passing_sig receiver_func w rsig :
  has_var_kw passing_sig = false →
  signature_of receiver_func w = Returned rsig →
  signature_of passing_func w = Returned passing_sig →
  ∃ d w',
    eval_sig_kw_params passing_sig receiver_func true w
      = (Returned (passing_sig, d), w') ∧
    (None, None) ∈ d ∧ last d = Some (None, None) ∧
    (∀ sig', Signature_replace passing_sig (Dict.values d) ≠ Returned sig') ∧
    ∃ e, (decorate [receiver_func] true passing_func w).1 = Raised e.
Proof.
  intros Hno Hr Hp. eexists _, _. split; [by apply eval_sig_kw_params_eq|].
  destruct (working_params_no_var_kw _ Hno) as [_ Hpop].
  apply find_var_kw_key_has_var_kw in Hno as Hkey.
  assert (merged_mapping passing_sig rsig true
          = widen (Dict.update (working_params passing_sig)
                     (to_params passing_sig rsig)) ++ [(None, None)]) as Hd.
  { unfold merged_mapping. rewrite Hkey, Hpop. apply setitem_absent.
    rewrite keys_widen. by intros (? & [=] & _)%list_elem_of_fmap. }
  assert (None ∈ Dict.values (merged_mapping passing_sig rsig true)) as Hnone.
  { rewrite Hd. unfold Dict.values. rewrite fmap_app. apply elem_of_app.
    right. simpl. left. }
  split_and!.
  - rewrite Hd. apply elem_of_app. right. left.
  - rewrite Hd. apply last_snoc.
  - by apply Signature_replace_None.
  - rewrite (decorate_single _ _ _ _ _ _ Hp Hr). simpl.
    destruct (Signature_replace _ _) as [sig'|e] eqn:Hrep; [|by exists e].
    by apply Signature_replace_None in Hrep.
Qed.

(** C9 at [f(a)] and [g(b=1)]. *)
Lemma C9_none_key_inserted_witness :
  has_var_kw (sig [pos "a"]) = false ∧
  signature_of g w_no_var_kw = Returned (sig [dflt "b" 1]) ∧
  signature_of f w_no_var_kw = Returned (sig [pos "a"]) ∧
  ∃ d w',
    eval_sig_kw_params (sig [pos "a"]) g true w_no_var_kw
      = (Returned (sig [pos "a"], d), w') ∧
    (None, None) ∈ d ∧ last d = Some (None, None) ∧
    (∀ sig', Signature_replace (sig [pos "a"]) (Dict.values d) ≠ Returned sig') ∧
    ∃ e, (decorate [g] true f w_no_var_kw).1 = Raised e.
Proof.
  do 3 (split; [reflexivity|]).
  apply (C9_none_key_inserted f (sig [pos "a"]) g w_no_var_kw (sig [dflt "b" 1]));
    reflexivity.
Defined.

(** C10.  A receiver parameter with a default that bears the name of the
    passing callable's variadic-keyword parameter is not blocked: the name
    is in the passing signature, but the membership test runs on the
    working mapping, from which the variadic-keyword parameter has been
    popped.  It is selected with the other receiver parameters, [before]
    and [after] it in the receiver's order.  With [keep_from_var_kw] false
    the mapping returned is the working mapping followed by the selected
    parameters, the reclassified receiver parameter standing under that
    name; with [keep_from_var_kw] true the mapping is the same but for
    that one entry, where the re-inserted variadic-keyword parameter has
    overwritten the merged parameter in place, before the parameters
    selected after it. *)
Theorem C10_var_kw_name_not_blocked passing_sig receiver_func rsig w var_kw val :
  wf_signature passing_sig → wf_signature rsig →
  signature_of receiver_func w = Returned rsig →
  var_kw ∈ parameters passing_sig → param_kind var_kw = VAR_KEYWORD →
  (∀ p, p ∈ parameters passing_sig → param_kind p = VAR_KEYWORD → p = var_kw) →
  val ∈ parameters rsig → param_default val ≠ None →
  param_name val = param_name var_kw →
  param_name val ∈ names passing_sig ∧
  (param_name val ∉ Dict.keys (working_params passing_sig)) ∧
  selected (working_params passing_sig) val = true ∧
  ∃ before after,
    to_params passing_sig rsig
      = before ++ (param_name val, to_keyword_only val) :: after ∧
    (∃ w',
       eval_sig_kw_params passing_sig receiver_func false w
         = (Returned
              (passing_sig,
               widen (working_params passing_sig ++ before)
                 ++ (Some (param_name val), Some (to_keyword_only val))
                 :: widen after), w')) ∧
    (∃ w',
       eval_sig_kw_params passing_sig receiver_func true w
         = (Returned
              (passing_sig,
               widen (working_params passing_sig ++ before)
                 ++ (Some (param_name val), Some var_kw) :: widen after), w')) ∧
    Dict.get (Some (param_name val))
      (widen (working_params passing_sig ++ before)
         ++ (Some (param_name val), Some (to_keyword_only val)) :: widen after)
      = Some (Some (to_keyword_only val)) ∧
    Dict.get (Some (param_name val))
      (widen (working_params passing_sig ++ before)
         ++ (Some (param_name val), Some var_kw) :: widen after)
      = Some (Some var_kw).
Proof.
  intros Hwfp Hwfr Hr Hin Hkind Huniq Hval Hdef Hname.
  destruct (popped_var_kw_unique _ _ Hwfp Hin Hkind Huniq) as (Hpop & _ & Hnotin).
  pose proof (find_var_kw_key_unique _ _ Hin Hkind Huniq) as Hkey.
  rewrite <-Hname in Hnotin, Hkey.
  assert (selected (working_params passing_sig) val = true) as Hsel.
  { unfold selected. rewrite bool_decide_eq_true_2 by done.
    apply contains_false in Hnotin. by rewrite Hnotin. }
  split_and!; [|done|done|].
  { rewrite Hname. apply list_elem_of_fmap. by exists var_kw. }
  pose proof (elem_of_to_params _ _ _ Hval Hsel) as Hmerged.
  apply list_elem_of_split in Hmerged as (before & after & Hsplit).
  exists before, after.
  assert (Some (param_name val)
            ∉ Dict.keys (widen (working_params passing_sig ++ before))) as Hfresh.
  { rewrite keys_widen. intros (k & [= <-] & Hk)%list_elem_of_fmap.
    unfold Dict.keys in Hk. rewrite fmap_app in Hk.
    apply elem_of_app in Hk as [Hk|Hk]; [by apply Hnotin|].
    pose proof (to_params_NoDup passing_sig rsig Hwfr) as Hnd.
    unfold Dict.keys in Hnd. rewrite Hsplit, fmap_app in Hnd.
    apply NoDup_app in Hnd as (_ & Hdisj & _). apply (Hdisj _ Hk). left. }
  assert (widen (working_params passing_sig ++ to_params passing_sig rsig)
          = widen (working_params passing_sig ++ before)
              ++ (Some (param_name val), Some (to_keyword_only val))
              :: widen after) as Hdrop.
  { by rewrite Hsplit, app_assoc, widen_app. }
  split_and!; [done| | | |].
  - eexists. rewrite (eval_sig_kw_params_eq _ _ _ _ _ Hr).
    by rewrite merged_mapping_drop, Hdrop.
  - eexists. rewrite (eval_sig_kw_params_eq _ _ _ _ _ Hr).
    rewrite merged_mapping_keep, Hkey, Hpop, Hdrop by done.
    by rewrite setitem_present_split.
  - rewrite get_app. apply get_None in Hfresh. rewrite Hfresh. simpl.
    by rewrite decide_True.
  - rewrite get_app. apply get_None in Hfresh. rewrite Hfresh. simpl.
    by rewrite decide_True.
Qed.

(** C10 at [f(a, **kwargs)] and [h(kwargs=3, b=9, c=4)]. *)
Lemma C10_var_kw_name_not_blocked_witness :
  let passing_sig := sig [pos "a"; var_kw "kwargs"] in
  let rsig := sig [dflt "kwargs" 3; dflt "b" 9; dflt "c" 4] in
  wf_signature passing_sig ∧ wf_signature rsig ∧
  signature_of h w_chain = Returned rsig ∧
  param_name (dflt "kwargs" 3) ∈ names passing_sig ∧
  (eval_sig_kw_params passing_sig h false w_chain).1
    = Returned (passing_sig,
                [(Some "a", Some (pos "a"));
                 (Some "kwargs", Some (kw_only "kwargs" 3));
                 (Some "b", Some (kw_only "b" 9));
                 (Some "c", Some (kw_only "c" 4))]) ∧
  (eval_sig_kw_params passing_sig h true w_chain).1
    = Returned (passing_sig,
                [(Some "a", Some (pos "a"));
                 (Some "kwargs", Some (var_kw "kwargs"));
                 (Some "b", Some (kw_only "b" 9));
                 (Some "c", Some (kw_only "c" 4))]).
Proof.
  intros passing_sig rsig.
  assert (wf_signature passing_sig) as Hwfp by solve_wf.
  assert (wf_signature rsig) as Hwfr by solve_wf.
  assert (var_kw "kwargs" ∈ parameters passing_sig) as Hin by (right; left).
  assert (∀ p, p ∈ parameters passing_sig → param_kind p = VAR_KEYWORD →
               p = var_kw "kwargs") as Huniq.
  { intros p [->|[->|[]%elem_of_nil]%elem_of_cons]%elem_of_cons; done. }
  assert (dflt "kwargs" 3 ∈ parameters rsig) as Hval by left.
  destruct (C10_var_kw_name_not_blocked passing_sig h rsig w_chain
              (var_kw "kwargs") (dflt "kwargs" 3) Hwfp Hwfr eq_refl Hin eq_refl
              Huniq Hval ltac:(done) eq_refl)
    as (Hname & _ & _ & before & after & Hsplit & [w1 Hdrop] & [w2 Hkeep] & _).
  assert (before = [] ∧ after = [("b", kw_only "b" 9); ("c", kw_only "c" 4)])
    as [-> ->].
  { assert (to_params passing_sig rsig
            = [("kwargs", kw_only "kwargs" 3); ("b", kw_only "b" 9);
               ("c", kw_only "c" 4)]) as Htp by (by vm_compute).
    rewrite Htp in Hsplit. clear -Hsplit.
    destruct before as [|[k q] before]; [by injection Hsplit as <-|].
    exfalso. injection Hsplit as _ _ Hrest.
    destruct before as [|[k' q'] before]; [by injection Hrest|].
    injection Hrest as _ _ Hrest.
    destruct before as [|[k'' q''] before]; [by injection Hrest|].
    injection Hrest as _ _ Hrest.
    by destruct before. }
  do 4 (split; [done|]). split.
  - by rewrite Hdrop.
  - by rewrite Hkeep.
Defined.

(** C4 (as stated, refuted).  For [f(a, /)] and the receiver [g(b=1, /)],
    the merged receiver parameter [b] is positional-only in the mapping the
    merge returns, and in the signature [f] then advertises. *)
Lemma C4_counterexample :
  (∃ d w' q,
     eval_sig_kw_params (sig [pos_only "a"]) g false w_pos_only
       = (Returned (sig [pos_only "a"], d), w') ∧
     Dict.get (Some "b") d = Some (Some q) ∧
     param_kind q = POSITIONAL_ONLY ∧ param_kind q ≠ KEYWORD_ONLY) ∧
  advertised f (decorate [g] false f w_pos_only).2 = Some "(a, b=1, /)".
Proof.
  split; [|by vm_compute].
  eexists _, _, (pos_only_dflt "b" 1).
  split; [by apply eval_sig_kw_params_eq|]. by vm_compute.
Qed.

(** C4 (amended).  A receiver parameter that is merged (it has a default
    and its name is not in the working mapping) and is not overwritten by
    the re-inserted variadic-keyword parameter stands in the returned
    mapping, under its name, as [to_keyword_only] leaves it: keyword-only
    when it was positional-or-keyword or keyword-only, and still
    positional-only when it was positional-only. *)
Theorem C4_merged_kind passing_sig receiver_func rsig keep w val :
  wf_signature rsig →
  signature_of receiver_func w = Returned rsig →
  val ∈ parameters rsig → param_default val ≠ None →
  param_name val ∉ Dict.keys (working_params passing_sig) →
  (keep = true →
   find_var_kw_key (dict_of_signature passing_sig) ≠ Some (param_name val)) →
  ∃ d w' q,
    eval_sig_kw_params passing_sig receiver_func keep w
      = (Returned (passing_sig, d), w') ∧
    Dict.get (Some (param_name val)) d = Some (Some q) ∧
    q = to_keyword_only val ∧
    (param_kind val = POSITIONAL_OR_KEYWORD ∨ param_kind val = KEYWORD_ONLY →
     param_kind q = KEYWORD_ONLY) ∧
    (param_kind val = POSITIONAL_ONLY → param_kind q = POSITIONAL_ONLY).
Proof.
  intros Hwf Hr Hval Hdef Hnotin Hkey.
  exists (merged_mapping passing_sig rsig keep),
         (world_after_merge passing_sig receiver_func rsig keep w),
         (to_keyword_only val).
  assert (selected (working_params passing_sig) val = true) as Hsel.
  { unfold selected. rewrite bool_decide_eq_true_2 by done.
    apply contains_false in Hnotin. by rewrite Hnotin. }
  assert (Dict.get (Some (param_name val))
            (widen (working_params passing_sig ++ to_params passing_sig rsig))
          = Some (Some (to_keyword_only val))) as Hget.
  { rewrite get_widen, get_app. apply get_None in Hnotin. rewrite Hnotin.
    erewrite elem_of_get; [done|by apply to_params_NoDup|].
    by apply elem_of_to_params. }
  split_and!; [by apply eval_sig_kw_params_eq| |done| |].
  - destruct keep.
    + rewrite merged_mapping_keep, get_setitem_ne by auto. done.
    + by rewrite merged_mapping_drop.
  - rewrite to_keyword_only_kind. intros [->| ->]; by simpl.
  - rewrite to_keyword_only_kind. by intros ->.
Qed.

(** C4 (amended) at [f(a, *args, **kwargs)] and the parameter [b=1] of
    [g(a, b=1, c=2)]. *)
Lemma C4_merged_kind_witness :
  let passing_sig := sig [pos "a"; var_pos "args"; var_kw "kwargs"] in
  let rsig := sig [pos "a"; dflt "b" 1; dflt "c" 2] in
  wf_signature rsig ∧
  signature_of g w_fg = Returned rsig ∧
  dflt "b" 1 ∈ parameters rsig ∧
  param_default (dflt "b" 1) ≠ None ∧
  (param_name (dflt "b" 1) ∉ Dict.keys (working_params passing_sig)) ∧
  ∃ d w' q,
    eval_sig_kw_params passing_sig g true w_fg
      = (Returned (passing_sig, d), w') ∧
    Dict.get (Some "b") d = Some (Some q) ∧
    q = kw_only "b" 1 ∧ param_kind q = KEYWORD_ONLY.
Proof.
  intros passing_sig rsig.
  assert (wf_signature rsig) as Hwf by solve_wf.
  assert (dflt "b" 1 ∈ parameters rsig) as Hval by (right; left).
  assert (param_default (dflt "b" 1) ≠ None) as Hdef by done.
  assert (param_name (dflt "b" 1) ∉ Dict.keys (working_params passing_sig))
    as Hnotin.
  { apply (bool_decide_unpack _). vm_compute. exact I. }
  destruct (C4_merged_kind passing_sig g rsig true w_fg (dflt "b" 1)
              Hwf eq_refl Hval Hdef Hnotin ltac:(by vm_compute))
    as (d & w' & q & Heval & Hget & Hq & Hkw & _).
  split_and!; try done.
  exists d, w', q. split_and!; try done. apply Hkw. by left.
Defined.

(** C5 (as stated, refuted).  [f(a, **kwargs)] and [g(b=1)] share no name;
    [f] has two parameters and [g] one with a default, yet the signature
    [passes_kws_to(g)] gives [f] has two parameters, not three. *)
Lemma C5_counterexample :
  let r := decorate [g] false f w_disjoint in
  signature_of f w_disjoint = Returned (sig [pos "a"; var_kw "kwargs"]) ∧
  signature_of g w_disjoint = Returned (sig [dflt "b" 1]) ∧
  names (sig [pos "a"; var_kw "kwargs"]) ## names (sig [dflt "b" 1]) ∧
  r.1 = Returned f ∧
  signature_of f r.2 = Returned (sig [pos "a"; kw_only "b" 1]) ∧
  length (parameters (sig [pos "a"; kw_only "b" 1]))
  ≠ length (parameters (sig [pos "a"; var_kw "kwargs"]))
    + length (filter (λ p, has_default p) (parameters (sig [dflt "b" 1]))).
Proof.
  split_and!; try by vm_compute.
  solve_disjoint.
Qed.

(** C5 (amended).  For a passing callable and a receiver with disjoint
    parameter names, when the decoration returns, the signature the passing
    callable advertises has as many parameters as the passing callable had,
    plus the receiver parameters that have a default, less one when
    [keep_from_var_kw] is false and the passing callable has a
    variadic-keyword parameter, which is then dropped. *)
Theorem C5_merged_count passing_func receiver_func keep w psig rsig c w' :
  signature_of passing_func w = Returned psig →
  signature_of receiver_func w = Returned rsig →
  wf_signature psig → wf_signature rsig →
  names psig ## names rsig →
  decorate [receiver_func] keep passing_func w = (Returned c, w') →
  ∃ sig',
    signature_of passing_func w' = Returned sig' ∧
    length (parameters sig')
      + (if negb keep && has_var_kw psig then 1 else 0)
    = length (parameters psig)
      + length (filter (λ p, has_default p) (parameters rsig)).
Proof.
  intros Hp Hr Hwfp Hwfr Hdisj. rewrite (decorate_single _ _ _ _ _ _ Hp Hr). simpl.
  destruct (Signature_replace _ _) as [sig'|e] eqn:Hrep; [|done].
  destruct (setattr___signature__ _ _ _) as [[[]|e] w''] eqn:Hset; [|done].
  intros [= <- <-]. exists sig'.
  apply setattr___signature___Returned in Hset as (_ & _ & _ & _ & _ & _ & _ & Hsig).
  split; [done|].
  pose proof Hrep as (Hvals & _ & _)%Signature_replace_Returned.
  apply (f_equal length) in Hvals. rewrite length_fmap, length_values in Hvals.
  rewrite Hvals. rewrite <-(working_params_length psig).
  rewrite <-(length_to_params_disjoint _ _ Hdisj).
  destruct keep.
  - destruct (keep_rebuilt_has_var_kw _ _ _ Hrep) as (k & p & Hk & Hpop & Hin & Hn & ->).
    rewrite merged_mapping_keep by done. rewrite Hk, Hpop, setitem_absent.
    + rewrite length_app, length_widen, length_app. simpl. lia.
    + rewrite keys_widen. intros (k' & [= <-] & Hk')%list_elem_of_fmap.
      unfold Dict.keys in Hk'. rewrite fmap_app in Hk'.
      apply elem_of_app in Hk' as [Hk'|Hk'].
      * destruct (working_params_var_kw _ _ Hk) as [Hw _].
        unfold Dict.keys in Hk'. rewrite Hw in Hk'. revert Hk'.
        apply keys_remove_NoDup. by rewrite keys_dict_of_signature.
      * apply keys_to_params_subseteq in Hk'. apply (Hdisj k); [|done].
        subst k. apply list_elem_of_fmap. by exists p.
  - rewrite merged_mapping_drop, length_widen, length_app by done.
    destruct (has_var_kw psig); simpl; lia.
Qed.

(** C5 (amended) at [f(a, **kwargs)] and [g(b=1)]. *)
Lemma C5_merged_count_witness :
  let psig := sig [pos "a"; var_kw "kwargs"] in
  let rsig := sig [dflt "b" 1] in
  signature_of f w_disjoint = Returned psig ∧
  signature_of g w_disjoint = Returned rsig ∧
  wf_signature psig ∧ wf_signature rsig ∧ names psig ## names rsig ∧
  (decorate [g] false f w_disjoint).1 = Returned f ∧
  ∃ sig',
    signature_of f (decorate [g] false f w_disjoint).2 = Returned sig' ∧
    length (parameters sig') + 1 = 2 + 1.
Proof.
  intros psig rsig.
  assert (wf_signature psig) as Hwfp by solve_wf.
  assert (wf_signature rsig) as Hwfr by solve_wf.
  assert (names psig ## names rsig) as Hdisj by solve_disjoint.
  split_and!; try done.
  apply (C5_merged_count f g false w_disjoint psig rsig f
           (decorate [g] false f w_disjoint).2 eq_refl eq_refl Hwfp Hwfr Hdisj).
  by vm_compute.
Defined.

(** C6 (as stated, refuted).  [f(a, **kwargs)] decorated with
    [passes_kws_to(g, keep_from_var_kw=True)] for [g(b=1, /)], a receiver
    without variadic-keyword parameter: one warning is logged, but the
    decoration raises [ValueError] (the positional-only [b] lands after
    [a]) and [f] keeps the signature it had.  With [f(a)] and [g(b=1)] it
    raises [AttributeError]. *)
Lemma C6_counterexample :
  let r := decorate [g] true f w_order in
  signature_of g w_order = Returned (sig [pos_only_dflt "b" 1]) ∧
  has_var_kw (sig [pos_only_dflt "b" 1]) = false ∧
  r.1 = Raised ValueError ∧ r.1 ≠ Returned f ∧
  signature_of f r.2 = Returned (sig [pos "a"; var_kw "kwargs"]) ∧
  length (log r.2) = 1 ∧
  (decorate [g] true f w_no_var_kw).1 = Raised AttributeError.
Proof. split_and!; by vm_compute. Qed.

(** C6 (amended).  Every decoration with [keep_from_var_kw] set and one
    receiver that has no variadic-keyword parameter, both signatures being
    obtained, logs exactly one warning, about that receiver and its
    reclassified parameters, whether the decoration then returns or
    raises.  The decoration returns the passing callable when, moreover,
    this is a Python function whose valid signature has one
    variadic-keyword parameter, and the receiver parameters that have a
    default are positional-or-keyword or keyword-only and none bears the
    name of that variadic-keyword parameter; the function then advertises
    its own parameters, the merged ones and the variadic-keyword parameter
    last. *)
Theorem C6_kept_var_kw_warns_once passing_func receiver_func w psig rsig :
  signature_of passing_func w = Returned psig →
  signature_of receiver_func w = Returned rsig →
  has_var_kw rsig = false →
  let r := decorate [receiver_func] true passing_func w in
  log r.2 = log w ++ [Warning receiver_func (mutated_params psig rsig)] ∧
  (∀ v,
     is_function passing_func w →
     valid_signature psig → wf_signature rsig →
     v ∈ parameters psig → param_kind v = VAR_KEYWORD →
     (∀ p, p ∈ parameters psig → param_kind p = VAR_KEYWORD → p = v) →
     (∀ val, val ∈ parameters rsig → param_default val ≠ None →
             param_kind val = POSITIONAL_OR_KEYWORD ∨ param_kind val = KEYWORD_ONLY) →
     (∀ val, val ∈ parameters rsig → param_default val ≠ None →
             param_name val ≠ param_name v) →
     r.1 = Returned passing_func ∧
     ∃ ps0, parameters psig = ps0 ++ [v] ∧
       signature_of passing_func r.2 =
         Returned {| parameters := ps0 ++ Dict.values (to_params psig rsig) ++ [v];
                     return_annotation := return_annotation psig |}).
Proof.
  intros Hp Hr Hno r. split; [by apply decorate_keep_log|].
  intros v Hfun Hvalid Hwfr Hin Hkind Huniq Hkinds Hnames.
  destruct (rebuild_keep_success _ _ _ Hvalid Hwfr Hin Hkind Huniq Hkinds Hnames)
    as (ps0 & Hps & Hrep).
  destruct (setattr___signature___is_function passing_func
              {| parameters := ps0 ++ Dict.values (to_params psig rsig) ++ [v];
                 return_annotation := return_annotation psig |}
              (world_after_merge psig receiver_func rsig true w)) as [w' Hset].
  { eapply frame_is_function; [apply world_after_merge_frame|done]. }
  unfold r. rewrite (decorate_single _ _ _ _ _ _ Hp Hr). cbv zeta.
  rewrite Hrep, Hset. split; [done|].
  exists ps0. split; [done|]. simpl.
  by apply setattr___signature___Returned in Hset as (_ & _ & _ & _ & _ & _ & _ & ?).
Qed.

(** C6 (amended) at [f(a, **kwargs)] and [g(b=1)]. *)
Lemma C6_kept_var_kw_warns_once_witness :
  let psig := sig [pos "a"; var_kw "kwargs"] in
  let rsig := sig [dflt "b" 1] in
  let r := decorate [g] true f w_disjoint in
  is_function f w_disjoint ∧
  signature_of f w_disjoint = Returned psig ∧
  signature_of g w_disjoint = Returned rsig ∧
  valid_signature psig ∧ wf_signature rsig ∧ has_var_kw rsig = false ∧
  r.1 = Returned f ∧
  signature_of f r.2 = Returned (sig [pos "a"; kw_only "b" 1; var_kw "kwargs"]) ∧
  log r.2 = [Warning g [kw_only "b" 1]].
Proof.
  intros psig rsig r.
  assert (is_function f w_disjoint) as Hfun by (eexists 1, _; by split).
  assert (valid_signature psig) as Hvalid by reflexivity.
  assert (wf_signature rsig) as Hwfr by solve_wf.
  assert (var_kw "kwargs" ∈ parameters psig) as Hin by (right; left).
  assert (∀ p, p ∈ parameters psig → param_kind p = VAR_KEYWORD →
               p = var_kw "kwargs") as Huniq.
  { intros p [->|[->|[]%elem_of_nil]%elem_of_cons]%elem_of_cons; done. }
  assert (∀ val, val ∈ parameters rsig → param_default val ≠ None →
                 param_kind val = POSITIONAL_OR_KEYWORD ∨
                 param_kind val = KEYWORD_ONLY) as Hkinds.
  { intros val [->|[]%elem_of_nil]%elem_of_cons _. by left. }
  assert (∀ val, val ∈ parameters rsig → param_default val ≠ None →
                 param_name val ≠ param_name (var_kw "kwargs")) as Hnames.
  { intros val [->|[]%elem_of_nil]%elem_of_cons _. done. }
  destruct (C6_kept_var_kw_warns_once f g w_disjoint psig rsig
              eq_refl eq_refl eq_refl) as [Hlog Hsuccess].
  destruct (Hsuccess (var_kw "kwargs") Hfun Hvalid Hwfr Hin eq_refl
              Huniq Hkinds Hnames) as (Hret & ps0 & Hps & Hsig).
  assert (ps0 = [pos "a"]) as ->.
  { change (parameters psig) with ([pos "a"] ++ [var_kw "kwargs"]) in Hps.
    by apply app_inj_tail in Hps as [<- _]. }
  by split_and!.
Defined.

End merge_claims.

Section frame_claims.
Import Scenario.

(** C8.  Whatever the receivers, the flag and the world, the decoration by
    [passes_kws_to] can only return the callable it was given, and the
    object at every location of the world, that callable included, keeps
    its name and its code: only [__signature__] attributes (and the log)
    change, so that calls bind and run as before.  The same holds of
    [super_init_pass_on_kws], which can only return the class it was
    given, applied directly or through the decorator it returns, and
    leaves the classes as they were. *)
Theorem C8_only_signature_changes :
  (∀ receiver_funcs keep passing_func w,
     let r := decorate receiver_funcs keep passing_func w in
     (r.1 = Returned passing_func ∨ ∃ e, r.1 = Raised e) ∧
     frame w r.2 ∧
     forget_signature <$> (match passing_func with
                           | FuncRef l => functions r.2 !! l
                           | object___init__ => None
                           end)
     = forget_signature <$> (match passing_func with
                             | FuncRef l => functions w !! l
                             | object___init__ => None
                             end)) ∧
  (∀ super_base keep func w,
     let r := super_init_pass_on_kws (Some func) super_base keep w in
     (r.1 = Returned (inl func) ∨ ∃ e, r.1 = Raised e) ∧
     frame w r.2 ∧ classes r.2 = classes w) ∧
  (∀ super_base keep func w,
     let r := super_init_pass_on_kws None super_base keep w in
     ∃ _func, r = (Returned (inr _func), w) ∧
       ∀ w1, let r1 := _func func w1 in
             (r1.1 = Returned func ∨ ∃ e, r1.1 = Raised e) ∧
             frame w1 r1.2 ∧ classes r1.2 = classes w1) ∧
  (let r := decorate [g] true f w_fg in
   r.1 = Returned f ∧
   ∃ fobj sig',
     functions w_fg !! 1 = Some (Function fobj) ∧
     functions r.2 !! 1 = Some (Function (set___signature__ sig' fobj)) ∧
     functions r.2 !! 2 = functions w_fg !! 2).
Proof.
  split_and!.
  - intros receiver_funcs keep passing_func w r. unfold r. rewrite decorate_eq.
    pose proof (framed_passes_kws_to__func receiver_funcs keep passing_func w)
      as Hframe.
    split_and!; [apply returns_only_passes_kws_to__func|done|].
    destruct passing_func as [l|]; [apply Hframe|done].
  - intros super_base keep func w r. unfold r, super_init_pass_on_kws.
    pose proof (framed_super_init_pass_on_kws__func super_base keep func w)
      as Hframe.
    pose proof (returns_only_super_init_pass_on_kws__func super_base keep func w)
      as Hret.
    unfold mbind, Py_bind.
    destruct (super_init_pass_on_kws__func super_base keep func w) as [[c|e] w'].
    + simpl in *. destruct Hret as [[= ->]|[e [=]]].
      split_and!; [by left|done|apply Hframe].
    + simpl in *. split_and!; [right; by exists e|done|apply Hframe].
  - intros super_base keep func w r. eexists. split; [done|]. intros w1 r1.
    pose proof (framed_super_init_pass_on_kws__func super_base keep func w1)
      as Hframe.
    split_and!; [apply returns_only_super_init_pass_on_kws__func|done|apply Hframe].
  - split; [by vm_compute|]. eexists _, _. split_and!; by vm_compute.
Qed.

End frame_claims.

Section chain_claims.
Import Scenario.

(** C7 (as stated, refuted).  [f(a, **kwargs)] decorated with
    [passes_kws_to(g, h)] for [g(b=1)] and [h(kwargs=3, b=9, c=4)]: the
    parameter [kwargs=3] of [h] bears a name the passing callable had
    originally, and yet it is not blocked; it stands in the final
    signature, [(a, *, b=1, kwargs=3, c=4)]. *)
Lemma C7_counterexample :
  let r := decorate [g; h] false f w_chain in
  signature_of f w_chain = Returned (sig [pos "a"; var_kw "kwargs"]) ∧
  signature_of h w_chain = Returned (sig [dflt "kwargs" 3; dflt "b" 9; dflt "c" 4]) ∧
  "kwargs" ∈ names (sig [pos "a"; var_kw "kwargs"]) ∧
  r.1 = Returned f ∧
  signature_of f r.2
    = Returned (sig [pos "a"; kw_only "b" 1; kw_only "kwargs" 3; kw_only "c" 4]) ∧
  param_named "kwargs"
    (sig [pos "a"; kw_only "b" 1; kw_only "kwargs" 3; kw_only "c" 4])
    = Some (to_keyword_only (dflt "kwargs" 3)) ∧
  advertised f r.2 = Some "(a, *, b=1, kwargs=3, c=4)".
Proof.
  split_and!; try by vm_compute.
  right. left.
Qed.

(** C7 (amended).  When the decoration with the receivers [A] then [B]
    returns, the merges ran in that order on the growing signature: with
    [sig1] the signature the merge of [A] gives, the final signature holds
    every parameter of [B] that has a default and whose name is not in
    [sig1], reclassified; under every other name of [sig1] it holds what
    [sig1] held, whatever [B] has under that name, except for a
    variadic-keyword parameter of [sig1] that is dropped because
    [keep_from_var_kw] is false.  [sig1] itself holds the parameters of
    the passing callable, its variadic-keyword parameter apart, and the
    parameters of [A] that have a default and a name new to the passing
    callable, reclassified. *)
Theorem C7_chained_receivers passing_func A B keep w psig asig bsig c w' :
  signature_of passing_func w = Returned psig →
  signature_of A w = Returned asig →
  signature_of B w = Returned bsig →
  wf_signature psig → wf_signature asig → wf_signature bsig →
  decorate [A; B] keep passing_func w = (Returned c, w') →
  ∃ sig1 w1 final,
    passes_kws_to_loop psig [A] keep w = (Returned sig1, w1) ∧
    signature_of passing_func w' = Returned final ∧
    (∀ b, b ∈ parameters bsig → param_default b ≠ None →
          param_name b ∉ names sig1 →
          param_named (param_name b) final = Some (to_keyword_only b)) ∧
    (∀ b x, b ∈ parameters bsig →
            param_named (param_name b) sig1 = Some x →
            param_kind x ≠ VAR_KEYWORD ∨ keep = true →
            param_named (param_name b) final = Some x) ∧
    (∀ a, a ∈ parameters asig → param_default a ≠ None →
          param_name a ∉ names psig →
          param_named (param_name a) sig1 = Some (to_keyword_only a)) ∧
    (∀ p, p ∈ parameters psig → param_kind p ≠ VAR_KEYWORD →
          param_named (param_name p) sig1 = Some p).
Proof.
  intros Hp Ha Hb Hwfp Hwfa Hwfb Hdec.
  rewrite decorate_eq in Hdec. unfold passes_kws_to__func in Hdec.
  unfold mbind at 1 2 3, Py_bind at 1 2 3 in Hdec.
  rewrite inspect_signature_eq, Hp in Hdec.
  rewrite (passes_kws_to_loop_cons _ _ _ _ _ _ Ha) in Hdec.
  destruct (Signature_replace psig _) as [sig1|] eqn:Hrep1; [|done].
  destruct (signature_of_after_merge psig A asig keep w B bsig Ha Hb)
    as (bsig' & Hb' & Hrel).
  rewrite (passes_kws_to_loop_cons _ _ _ _ _ _ Hb') in Hdec.
  destruct (Signature_replace sig1 _) as [final|] eqn:Hrep2; [|done].
  cbn [passes_kws_to_loop] in Hdec. unfold mret, Py_ret in Hdec.
  destruct (setattr___signature__ passing_func final _) as [[[]|e] w2] eqn:Hset;
    [|done].
  injection Hdec as <- <-.
  apply setattr___signature___Returned in Hset as (_ & _ & _ & _ & _ & _ & _ & Hfinal).
  pose proof (Signature_replace_Returned _ _ _ Hrep1) as (_ & _ & Hwf1).
  assert (wf_signature bsig') as Hwfb'.
  { unfold wf_signature. fold (names bsig').
    by rewrite (reclassified_names _ _ Hrel). }
  eexists sig1, _, final. split_and!.
  - rewrite (passes_kws_to_loop_cons _ _ _ _ _ _ Ha), Hrep1. done.
  - done.
  - intros b Hbin Hdef Hname.
    destruct (reclassified_elem_of _ _ _ Hrel Hbin) as (b' & Hbin' & Hbb').
    assert (param_name b' = param_name b ∧ param_default b' = param_default b ∧
            to_keyword_only b' = to_keyword_only b) as (Hn & Hd & Hk).
    { destruct Hbb' as [-> | ->]; [done|].
      by rewrite to_keyword_only_name, to_keyword_only_default,
        to_keyword_only_idemp. }
    rewrite <-(to_keyword_only_name b).
    eapply rebuilt_param_named; [exact Hrep2|].
    rewrite to_keyword_only_name, <-Hn, <-Hk.
    apply merge_get_receiver; [done..|congruence|congruence].
  - intros b x Hbin [Hx Hnx]%param_named_Some Hkind. rewrite <-Hnx.
    eapply rebuilt_param_named; [exact Hrep2|].
    by apply merge_get_passing.
  - intros a Hain Hdef Hname. rewrite <-(to_keyword_only_name a).
    eapply rebuilt_param_named; [exact Hrep1|].
    rewrite to_keyword_only_name. by apply merge_get_receiver.
  - intros p Hpin Hkind.
    eapply rebuilt_param_named; [exact Hrep1|].
    apply merge_get_passing; auto.
Qed.

(** C7 (amended) at [f(a, **kwargs)], [g(b=1)] and [h(kwargs=3, b=9, c=4)]. *)
Lemma C7_chained_receivers_witness :
  let psig := sig [pos "a"; var_kw "kwargs"] in
  let asig := sig [dflt "b" 1] in
  let bsig := sig [dflt "kwargs" 3; dflt "b" 9; dflt "c" 4] in
  let r := decorate [g; h] false f w_chain in
  signature_of f w_chain = Returned psig ∧
  signature_of g w_chain = Returned asig ∧
  signature_of h w_chain = Returned bsig ∧
  wf_signature psig ∧ wf_signature asig ∧ wf_signature bsig ∧
  r.1 = Returned f ∧
  ∃ sig1 final,
    (passes_kws_to_loop psig [g] false w_chain).1 = Returned sig1 ∧
    signature_of f r.2 = Returned final ∧
    param_named "c" final = Some (kw_only "c" 4) ∧
    param_named "b" final = Some (kw_only "b" 1).
Proof.
  intros psig asig bsig r.
  assert (wf_signature psig) as Hwfp by solve_wf.
  assert (wf_signature asig) as Hwfa by solve_wf.
  assert (wf_signature bsig) as Hwfb by solve_wf.
  assert (decorate [g; h] false f w_chain = (Returned f, r.2)) as Hdec
    by (by vm_compute).
  destruct (C7_chained_receivers f g h false w_chain psig asig bsig f r.2
              eq_refl eq_refl eq_refl Hwfp Hwfa Hwfb Hdec)
    as (sig1 & w1 & final & Hloop & Hfinal & Hincl & Hblock & Hadd & Hown).
  split_and!; try done.
  exists sig1, final. split_and!.
  - by rewrite Hloop.
  - done.
  - assert (sig1 = sig [pos "a"; kw_only "b" 1]) as ->.
    { vm_compute in Hloop. by injection Hloop as <- _. }
    apply (Hincl (dflt "c" 4)); [right; right; left|done|].
    apply (bool_decide_unpack _). by vm_compute.
  - apply (Hblock (dflt "b" 9) (kw_only "b" 1)); [right; left| |by left].
    apply (Hadd (dflt "b" 1)); [left|done|].
    apply (bool_decide_unpack _). by vm_compute.
Defined.

End chain_claims.

(** * Further properties of the merge and of the decorators *)

Section dict_membership.
Context {K V : Type} `{EqDecision K}.
Implicit Types (d other : Dict.t K V) (k : K) (v : V).

Lemma elem_of_setitem k v k' v' d :
  (k', v') ∈ Dict.setitem k v d → (k', v') = (k, v) ∨ (k', v') ∈ d.
Proof.
  induction d as [|[k0 v0] d IH]; simpl.
  - intros [->|[]%elem_of_nil]%elem_of_cons. by left.
  - case_decide.
    + intros [->|Hin]%elem_of_cons; [by left|right; by right].
    + intros [->|Hin]%elem_of_cons; [right; left|].
      destruct (IH Hin) as [?|?]; [by left|right; by right].
Qed.

Lemma elem_of_update k' v' d other :
  (k', v') ∈ Dict.update d other → (k', v') ∈ d ∨ (k', v') ∈ other.
Proof.
  unfold Dict.update. revert d.
  induction other as [|[k v] other IH]; intros d; simpl; [by left|].
  intros [Hin|Hin]%IH; [|right; by right].
  apply elem_of_setitem in Hin as [->|Hin]; [right; left|by left].
Qed.

Lemma elem_of_remove k k' v' d : (k', v') ∈ Dict.remove k d → (k', v') ∈ d.
Proof.
  induction d as [|[k0 v0] d IH]; simpl; [done|].
  case_decide; [by right|].
  intros [->|Hin]%elem_of_cons; [left|right; auto].
Qed.
End dict_membership.

Lemma elem_of_working_params passing_sig k p :
  (k, p) ∈ working_params passing_sig →
  p ∈ parameters passing_sig ∧ k = param_name p.
Proof.
  unfold working_params. intros Hin. apply elem_of_dict_of_signature.
  destruct (find_var_kw_key _) as [k0|]; [|done].
  destruct (Dict.contains _ _); [|done]. by eapply elem_of_remove.
Qed.

Lemma elem_of_to_params_inv passing_sig receiver_sig k q :
  (k, q) ∈ to_params passing_sig receiver_sig →
  ∃ val, val ∈ parameters receiver_sig ∧ param_default val ≠ None ∧
         (param_name val ∉ Dict.keys (working_params passing_sig)) ∧
         k = param_name val ∧ q = to_keyword_only val.
Proof.
  unfold to_params.
  intros (val & [= -> ->] & [Hsel Hin]%list_elem_of_filter)%list_elem_of_fmap.
  exists val. unfold selected in Hsel. apply andb_prop_elim in Hsel as [Hd Hc].
  split_and!; [done| | |done..].
  - by apply bool_decide_unpack in Hd.
  - apply negb_prop_elim in Hc. intros Hin'%contains_true. apply Hc.
    by rewrite Hin'.
Qed.

Section merge_properties.
Import Scenario.

(** X1.  [to_keyword_only] is idempotent, keeps the name and the default
    of the parameter, never leaves a positional-or-keyword parameter, and
    changes nothing else: a parameter of any other kind comes back as it
    is. *)
Theorem X1_to_keyword_only_idempotent val :
  to_keyword_only (to_keyword_only val) = to_keyword_only val ∧
  param_name (to_keyword_only val) = param_name val ∧
  param_default (to_keyword_only val) = param_default val ∧
  param_kind (to_keyword_only val) ≠ POSITIONAL_OR_KEYWORD ∧
  (to_keyword_only val = val ∨
   param_kind val = POSITIONAL_OR_KEYWORD ∧
   param_kind (to_keyword_only val) = KEYWORD_ONLY).
Proof.
  split_and!.
  - apply to_keyword_only_idemp.
  - apply to_keyword_only_name.
  - apply to_keyword_only_default.
  - rewrite to_keyword_only_kind. by case_decide.
  - unfold to_keyword_only. case_decide; [right|left]; done.
Qed.

(** X2.  The merge raises exactly when [inspect.signature] raises on the
    receiver: with that exception and without any effect on the world.
    Otherwise it returns, and the signature it returns is the passing
    signature it was given, whatever the receiver and the flag. *)
Theorem X2_merge_raises_only_for_receiver passing_sig receiver_func keep w :
  match signature_of receiver_func w with
  | Raised e =>
      eval_sig_kw_params passing_sig receiver_func keep w = (Raised e, w)
  | Returned rsig =>
      ∃ d w', eval_sig_kw_params passing_sig receiver_func keep w
              = (Returned (passing_sig, d), w') ∧
              length (working_params passing_sig) ≤ length d
  end.
Proof.
  destruct (signature_of receiver_func w) as [rsig|e] eqn:Hr.
  - eexists _, _. split; [by apply eval_sig_kw_params_eq|].
    unfold merged_mapping.
    assert (∀ d other : Dict.t string Param,
              length d ≤ length (Dict.update d other)) as Hupd.
    { intros d other. unfold Dict.update. revert d.
      induction other as [|[k v] other IH]; intros d; simpl; [done|].
      etrans; [|apply IH].
      destruct (decide (k ∈ Dict.keys d)).
      - by rewrite setitem_length_present.
      - rewrite setitem_absent, length_app by done. simpl. lia. }
    assert (∀ (d : Dict.t pykey pyval) k v,
              length d ≤ length (Dict.setitem k v d)) as Hset.
    { intros d k v. destruct (decide (k ∈ Dict.keys d)).
      - by rewrite setitem_length_present.
      - rewrite setitem_absent, length_app by done. simpl. lia. }
    destruct keep.
    + etrans; [|apply Hset]. rewrite length_widen. apply Hupd.
    + rewrite length_widen. apply Hupd.
  - by apply eval_sig_kw_params_raises.
Qed.

(** X3.  Every entry of the mapping the merge returns is of one of three
    sorts: a parameter of the passing signature under its name; a receiver
    parameter that has a default and whose name is not in the working
    mapping, reclassified, under its name; or Python's [None] under the key
    [None], which occurs only under [keep_from_var_kw] when the passing
    signature has no variadic-keyword parameter.  So a receiver parameter
    without default is never merged, nor one whose name the working
    mapping has. *)
Theorem X3_mapping_entries passing_sig receiver_func keep w rsig sig d w' k v :
  signature_of receiver_func w = Returned rsig →
  eval_sig_kw_params passing_sig receiver_func keep w = (Returned (sig, d), w') →
  (k, v) ∈ d →
  (∃ p, p ∈ parameters passing_sig ∧ k = Some (param_name p) ∧ v = Some p) ∨
  (∃ val, val ∈ parameters rsig ∧ param_default val ≠ None ∧
          (param_name val ∉ Dict.keys (working_params passing_sig)) ∧
          k = Some (param_name val) ∧ v = Some (to_keyword_only val)) ∨
  (k = None ∧ v = None ∧ keep = true ∧ has_var_kw passing_sig = false).
Proof.
  intros Hr Heval Hin.
  rewrite (eval_sig_kw_params_eq _ _ _ _ _ Hr) in Heval.
  injection Heval as <- <- <-.
  assert (∀ k v, (k, v) ∈ widen (Dict.update (working_params passing_sig)
                                   (to_params passing_sig rsig)) →
            (∃ p, p ∈ parameters passing_sig ∧ k = Some (param_name p) ∧ v = Some p) ∨
            (∃ val, val ∈ parameters rsig ∧ param_default val ≠ None ∧
               (param_name val ∉ Dict.keys (working_params passing_sig)) ∧
               k = Some (param_name val) ∧ v = Some (to_keyword_only val)))
    as Hwiden.
  { intros k0 v0 ([k1 q] & [= -> ->] & Hq)%list_elem_of_fmap. simpl.
    apply elem_of_update in Hq as [Hq|Hq].
    - left. apply elem_of_working_params in Hq as [? ->]. by exists q.
    - right. apply elem_of_to_params_inv in Hq as (val & ? & ? & ? & -> & ->).
      by exists val. }
  unfold merged_mapping in Hin. destruct keep.
  - apply elem_of_setitem in Hin as [[= -> ->]|Hin].
    + destruct (find_var_kw_key (dict_of_signature passing_sig)) as [k0|] eqn:Hk.
      * left. destruct (working_params_var_kw _ _ Hk) as (_ & p & -> & Hp & <-).
        by exists p.
      * right. right. apply find_var_kw_key_has_var_kw in Hk as Hno.
        by destruct (working_params_no_var_kw _ Hno) as [_ ->].
    + destruct (Hwiden _ _ Hin) as [?|?]; auto.
  - destruct (Hwiden _ _ Hin) as [?|?]; auto.
Qed.

(** X3 at [f(a, *args, **kwargs)], [g(a, b=1, c=2)] and the entry [b]. *)
Lemma X3_mapping_entries_witness :
  let passing_sig := sig [pos "a"; var_pos "args"; var_kw "kwargs"] in
  let rsig := sig [pos "a"; dflt "b" 1; dflt "c" 2] in
  let r := eval_sig_kw_params passing_sig g false w_fg in
  signature_of g w_fg = Returned rsig ∧
  (∃ d, r.1 = Returned (passing_sig, d) ∧ (Some "b", Some (kw_only "b" 1)) ∈ d) ∧
  ∃ val, val ∈ parameters rsig ∧ param_default val ≠ None ∧
         Some "b" = Some (param_name val) ∧
         Some (kw_only "b" 1) = Some (to_keyword_only val).
Proof.
  intros passing_sig rsig r.
  assert ((Some "b", Some (kw_only "b" 1)) ∈ merged_mapping passing_sig rsig false)
    as Hin by (right; right; left).
  split; [done|]. split; [eexists; split; [reflexivity|exact Hin]|].
  destruct (X3_mapping_entries passing_sig g false w_fg rsig passing_sig
              (merged_mapping passing_sig rsig false) r.2
              (Some "b") (Some (kw_only "b" 1)) eq_refl eq_refl Hin)
    as [(p & Hp & [= Hk] & [= Hv])|[(val & ? & ? & ? & ? & ?)|(? & _)]].
  - exfalso. subst p. revert Hp. apply (bool_decide_unpack _). by vm_compute.
  - by exists val.
  - done.
Defined.

End merge_properties.

(** ** Logs, frames and rebuilt signatures along the loop *)

Lemma frame_sym w w' : frame w w' → frame w' w.
Proof. intros [Hc Hf]. split; [done|]. intros l. by rewrite Hf. Qed.

Lemma Signature_replace_valid psig ps sig' :
  Signature_replace psig ps = Returned sig' → valid_signature sig'.
Proof.
  intros Hrep. pose proof (Signature_replace_Returned _ _ _ Hrep) as (Hps & Hret & _).
  unfold valid_signature. unfold Signature_replace in Hrep.
  by rewrite Hps, Hret.
Qed.


Lemma passes_kws_to_loop_raises psig receiver_func rest keep w e :
  signature_of receiver_func w = Raised e →
  passes_kws_to_loop psig (receiver_func :: rest) keep w = (Raised e, w).
Proof.
  intros Hr. simpl. unfold mbind, Py_bind.
  by rewrite (eval_sig_kw_params_raises _ _ _ _ _ Hr).
Qed.

Lemma passes_kws_to_loop_Returned keep receiver_funcs psig w final w' :
  passes_kws_to_loop psig receiver_funcs keep w = (Returned final, w') →
  return_annotation final = return_annotation psig ∧
  (receiver_funcs = [] ∧ final = psig ∨
   valid_signature final ∧ wf_signature final).
Proof.
  revert psig w. induction receiver_funcs as [|r rs IH]; intros psig w.
  - intros [= <- <-]. split; [done|by left].
  - destruct (signature_of r w) as [rsig|e] eqn:Hr.
    + rewrite (passes_kws_to_loop_cons _ _ _ _ _ _ Hr).
      destruct (Signature_replace _ _) as [sig1|e] eqn:Hrep; [|done].
      pose proof (Signature_replace_Returned _ _ _ Hrep) as (_ & Hret & Hwf).
      pose proof (Signature_replace_valid _ _ _ Hrep) as Hvalid.
      intros [Hret' Hcases]%IH. split; [congruence|]. right.
      destruct Hcases as [[_ ->]|?]; done.
    + by rewrite (passes_kws_to_loop_raises _ _ _ _ _ _ Hr).
Qed.

(** The decoration unfolded: the signature of the passing callable, the
    loop, the assignment. *)
Lemma decorate_Returned receiver_funcs keep passing_func w c w' :
  decorate receiver_funcs keep passing_func w = (Returned c, w') →
  ∃ psig final w2,
    signature_of passing_func w = Returned psig ∧
    passes_kws_to_loop psig receiver_funcs keep w = (Returned final, w2) ∧
    setattr___signature__ passing_func final w2 = (Returned tt, w') ∧
    c = passing_func.
Proof.
  rewrite decorate_eq. unfold passes_kws_to__func.
  unfold mbind at 1 2 3, Py_bind at 1 2 3. rewrite inspect_signature_eq.
  destruct (signature_of passing_func w) as [psig|e]; [|done].
  destruct (passes_kws_to_loop _ _ _ _) as [[final|e] w2] eqn:Hloop; [|done].
  destruct (setattr___signature__ _ _ _) as [[[]|e] w3] eqn:Hset; [|done].
  intros [= <- <-]. by exists psig, final, w2.
Qed.

Section decoration_properties.
Import Scenario.

(** X4.  In the default mode ([keep_from_var_kw] false), when the
    decoration with one receiver returns, the passing callable advertises
    exactly: its own parameters without its variadic-keyword parameter, in
    their order, followed by the receiver parameters that have a default
    and a name the working mapping lacks, reclassified, in the receiver's
    order; the return annotation is kept. *)
Theorem X4_default_mode_shape passing_func receiver_func w psig rsig c w' :
  signature_of passing_func w = Returned psig →
  signature_of receiver_func w = Returned rsig →
  wf_signature rsig →
  decorate [receiver_func] false passing_func w = (Returned c, w') →
  signature_of passing_func w' =
    Returned
      {| parameters :=
           Dict.values (working_params psig) ++
           (to_keyword_only <$>
              filter (λ val, param_default val ≠ None ∧
                             param_name val ∉ Dict.keys (working_params psig))
                     (parameters rsig));
         return_annotation := return_annotation psig |}.
Proof.
  intros Hp Hr Hwf. rewrite (decorate_single _ _ _ _ _ _ Hp Hr). cbv zeta.
  destruct (Signature_replace _ _) as [sig'|e] eqn:Hrep; [|done].
  destruct (setattr___signature__ _ _ _) as [[[]|e] w''] eqn:Hset; [|done].
  intros [= <- <-].
  apply setattr___signature___Returned in Hset as (_ & _ & _ & _ & _ & _ & _ & ->).
  apply Signature_replace_Returned in Hrep as (Hvals & Hret & _).
  rewrite merged_mapping_drop, values_widen in Hvals by done.
  apply (inj (fmap Some)) in Hvals.
  f_equal. destruct sig' as [ps ret]. simpl in *. subst ret. f_equal.
  rewrite Hvals. unfold Dict.values at 1. rewrite fmap_app. f_equal.
  unfold to_params. rewrite <-list_fmap_compose. simpl.
  rewrite (filter_ext_elem_of
             (λ val, selected (working_params psig) val)
             (λ val, param_default val ≠ None ∧
                     param_name val ∉ Dict.keys (working_params psig))); [done|].
  intros val _. unfold selected.
  rewrite andb_True, bool_decide_spec, negb_True, <-contains_true.
  by rewrite Is_true_true.
Qed.

(** X4 at [f(a, *args, **kwargs)] and [g(a, b=1, c=2)]. *)
Lemma X4_default_mode_shape_witness :
  let psig := sig [pos "a"; var_pos "args"; var_kw "kwargs"] in
  let rsig := sig [pos "a"; dflt "b" 1; dflt "c" 2] in
  let r := decorate [g] false f w_fg in
  signature_of f w_fg = Returned psig ∧
  signature_of g w_fg = Returned rsig ∧
  wf_signature rsig ∧ r.1 = Returned f ∧
  signature_of f r.2
  = Returned (sig [pos "a"; var_pos "args"; kw_only "b" 1; kw_only "c" 2]).
Proof.
  intros psig rsig r.
  assert (wf_signature rsig) as Hwf by solve_wf.
  assert (decorate [g] false f w_fg = (Returned f, r.2)) as Hdec by (by vm_compute).
  do 4 (split; [done|]).
  rewrite (X4_default_mode_shape f g w_fg psig rsig f r.2 eq_refl eq_refl Hwf Hdec).
  by vm_compute.
Defined.

(** X6.  The reclassification is done in place on the parameters of the
    receiver: when the receiver stores its signature in [__signature__],
    after the merge it advertises its parameters with the selected ones
    reclassified; when it stores none, the merge leaves every function
    object as it was. *)
Theorem X6_stored_receiver_is_reclassified psig l fr keep w :
  functions w !! l = Some (Function fr) →
  let w' := (eval_sig_kw_params psig (FuncRef l) keep w).2 in
  match __signature__ fr with
  | Some rsig =>
      signature_of (FuncRef l) w' =
        Returned {| parameters := mutated_params psig rsig;
                    return_annotation := return_annotation rsig |}
  | None => functions w' = functions w
  end.
Proof.
  intros Hl w'. unfold w'.
  assert (signature_of (FuncRef l) w =
          Returned (match __signature__ fr with
                    | Some s => s
                    | None => co_declared (__code__ fr)
                    end)) as Hr by (by rewrite signature_of_FuncRef, Hl).
  rewrite (eval_sig_kw_params_eq _ _ _ _ _ Hr). simpl.
  destruct (__signature__ fr) as [rsig|] eqn:Hs.
  - rewrite signature_of_FuncRef, world_after_merge_functions.
    unfold store_mutated. rewrite Hl, Hs. simpl. by rewrite lookup_insert_eq.
  - rewrite world_after_merge_functions. unfold store_mutated. by rewrite Hl, Hs.
Qed.

(** X6 at [f(x, **kwargs)] and a [g(a, b=1)] that stores its signature:
    after the merge [g] advertises [(a, *, b=1)]. *)
Lemma X6_stored_receiver_is_reclassified_witness :
  let psig := sig [pos "x"; var_kw "kwargs"] in
  let w' := (eval_sig_kw_params psig g false Stored.w_stored).2 in
  advertised g Stored.w_stored = Some "(a, b=1)" ∧
  signature_of g w' = Returned (sig [pos "a"; kw_only "b" 1]) ∧
  advertised g w' = Some "(a, *, b=1)".
Proof.
  intros psig w'. split; [by vm_compute|].
  assert (signature_of g w' = Returned (sig [pos "a"; kw_only "b" 1])) as Hg.
  { exact (X6_stored_receiver_is_reclassified psig 2 _ false Stored.w_stored
             eq_refl). }
  split; [done|]. unfold advertised. by rewrite Hg.
Defined.

(** X7.  Decorating a Python function with no receiver at all returns the
    function and changes nothing it advertises: the signature is read and
    stored back as it is, nothing is logged. *)
Theorem X7_no_receivers keep passing_func w :
  is_function passing_func w →
  ∃ w', decorate [] keep passing_func w = (Returned passing_func, w') ∧
        signature_of passing_func w' = signature_of passing_func w ∧
        log w' = log w ∧ frame w w'.
Proof.
  intros (l & fobj & -> & Hl).
  rewrite decorate_eq. unfold passes_kws_to__func.
  unfold mbind at 1 2 3, Py_bind at 1 2 3. rewrite inspect_signature_eq.
  rewrite signature_of_FuncRef, Hl. cbn [passes_kws_to_loop mret Py_ret].
  unfold setattr___signature__. rewrite Hl. simpl.
  eexists. split; [done|]. split_and!; [|done|].
  - rewrite signature_of_FuncRef. simpl. by rewrite lookup_insert_eq.
  - by apply frame_insert_signature.
Qed.

(** X7 at [f(a, *args, **kwargs)]. *)
Lemma X7_no_receivers_witness :
  is_function f w_fg ∧
  ∃ w', decorate [] true f w_fg = (Returned f, w') ∧
        signature_of f w' = signature_of f w_fg ∧ log w' = log w_fg ∧
        frame w_fg w'.
Proof.
  assert (is_function f w_fg) as Hfun by (eexists 1, _; by split).
  split; [done|]. by apply (X7_no_receivers true f w_fg).
Defined.

(** X8.  When a decoration returns, the passing callable advertises a
    signature with the return annotation it had, which is the signature
    it had when there is no receiver, and otherwise has passed the
    validation of the constructor and has no duplicate names. *)
Theorem X8_decorated_signature_valid receiver_funcs keep passing_func w c w' :
  decorate receiver_funcs keep passing_func w = (Returned c, w') →
  ∃ psig final,
    signature_of passing_func w = Returned psig ∧
    signature_of passing_func w' = Returned final ∧
    return_annotation final = return_annotation psig ∧
    (receiver_funcs = [] ∧ final = psig ∨
     valid_signature final ∧ wf_signature final).
Proof.
  intros (psig & final & w2 & Hp & Hloop & Hset & ->)%decorate_Returned.
  apply setattr___signature___Returned in Hset
    as (l & fobj & -> & Hl & _ & _ & _ & Hfinal).
  exists psig, final. split_and!; [done..| |];
    by apply passes_kws_to_loop_Returned in Hloop as [? ?].
Qed.

(** X8 at [f(a, **kwargs)] and [g(b=1)]. *)
Lemma X8_decorated_signature_valid_witness :
  let r := decorate [g] false f w_disjoint in
  r.1 = Returned f ∧
  ∃ final, signature_of f r.2 = Returned final ∧
           return_annotation final = None ∧
           valid_signature final ∧ wf_signature final.
Proof.
  intros r.
  assert (decorate [g] false f w_disjoint = (Returned f, r.2)) as Hdec
    by (by vm_compute).
  destruct (X8_decorated_signature_valid [g] false f w_disjoint f r.2 Hdec)
    as (psig & final & Hp & Hfinal & Hann & [[[=] _]|[Hvalid Hwf]]).
  split; [done|]. exists final. split_and!; [done| |done..].
  rewrite Hann. by injection Hp as <-.
Defined.

End decoration_properties.

(** ** The class decorator in closed form *)

Lemma super_init_pass_on_kws__func_eq super_base keep func w :
  super_init_pass_on_kws__func super_base keep func w =
  let from_func := getattr___init__ func w in
  let to_func := super_init_receiver super_base func w in
  match signature_of from_func w with
  | Raised e => (Raised e, w)
  | Returned from_sig =>
      match signature_of to_func w with
      | Raised e => (Raised e, w)
      | Returned to_sig =>
          let w1 := world_after_merge from_sig to_func to_sig keep w in
          match Signature_replace from_sig
                  (Dict.values (merged_mapping from_sig to_sig keep)) with
          | Returned sig' =>
              match setattr___signature__ from_func sig' w1 with
              | (Returned _, w') => (Returned func, w')
              | (Raised e, w') => (Raised e, w')
              end
          | Raised e => (Raised e, w1)
          end
      end
  end.
Proof.
  unfold super_init_pass_on_kws__func, super_init_receiver.
  unfold mbind at 1 2, Py_bind at 1 2, get_world. rewrite inspect_signature_eq.
  cbv zeta.
  destruct (signature_of (getattr___init__ func w) w) as [from_sig|e]; [|done].
  unfold mbind at 1, Py_bind at 1.
  destruct (signature_of _ w) as [to_sig|e] eqn:Hto.
  - rewrite (eval_sig_kw_params_eq _ _ _ _ _ Hto).
    unfold mbind, Py_bind, lift_outcome. simpl.
    by destruct (Signature_replace _ _).
  - by rewrite (eval_sig_kw_params_raises _ _ _ _ _ Hto).
Qed.

Lemma decorate_raises_passing receiver_funcs keep passing_func w e :
  signature_of passing_func w = Raised e →
  decorate receiver_funcs keep passing_func w = (Raised e, w).
Proof.
  intros Hp. rewrite decorate_eq. unfold passes_kws_to__func, mbind, Py_bind.
  by rewrite inspect_signature_eq, Hp.
Qed.

Lemma decorate_raises_receiver receiver_func keep passing_func w psig e :
  signature_of passing_func w = Returned psig →
  signature_of receiver_func w = Raised e →
  decorate [receiver_func] keep passing_func w = (Raised e, w).
Proof.
  intros Hp Hr. rewrite decorate_eq. unfold passes_kws_to__func.
  unfold mbind at 1 2, Py_bind at 1 2. rewrite inspect_signature_eq, Hp.
  by rewrite (passes_kws_to_loop_raises _ _ _ _ _ _ Hr).
Qed.

Lemma filter_none {A} (P : A → Prop) `{!∀ x, Decision (P x)} (l : list A) :
  (∀ x, x ∈ l → ¬ P x) → filter P l = [].
Proof.
  induction l as [|x l IH]; intros Hall; [done|].
  rewrite filter_cons_False by (apply Hall; left).
  apply IH. intros y Hy. apply Hall. by right.
Qed.

(** A name of the signature that the working mapping lacks is the name of
    the popped variadic-keyword parameter. *)
Lemma working_params_lacks sig n :
  wf_signature sig → n ∈ names sig → n ∉ Dict.keys (working_params sig) →
  ∃ v, v ∈ parameters sig ∧ param_name v = n ∧ param_kind v = VAR_KEYWORD ∧
       popped_var_kw sig = Some v.
Proof.
  intros Hwf Hn Hnotin.
  assert (NoDup (Dict.keys (dict_of_signature sig))) as Hnd
    by (by rewrite keys_dict_of_signature).
  destruct (find_var_kw_key (dict_of_signature sig)) as [k|] eqn:Hk.
  - destruct (working_params_var_kw _ _ Hk) as (Hw & q & Hpop & Hq & Hqn).
    apply find_var_kw_key_Some in Hk as (v & Hv & Hkind).
    pose proof Hv as [Hvin ->]%elem_of_dict_of_signature.
    assert (q = v) as ->.
    { apply (elem_of_get _ _ _ Hnd) in Hv.
      assert ((param_name v, q) ∈ dict_of_signature sig) as Hq'
        by (apply elem_of_dict_of_signature; by rewrite Hqn).
      apply (elem_of_get _ _ _ Hnd) in Hq'. congruence. }
    exists v. split_and!; [done| |done..].
    destruct (decide (param_name v = n)) as [|Hne]; [done|].
    exfalso. apply Hnotin. rewrite Hw. apply keys_remove_ne; [done|].
    by rewrite keys_dict_of_signature.
  - exfalso. apply Hnotin. apply find_var_kw_key_has_var_kw in Hk.
    destruct (working_params_no_var_kw _ Hk) as [-> _].
    by rewrite keys_dict_of_signature.
Qed.

(** Merging a signature into itself selects nothing. *)
Lemma to_params_self sig :
  wf_signature sig →
  (∀ p, p ∈ parameters sig → param_kind p = VAR_KEYWORD → param_default p = None) →
  to_params sig sig = [].
Proof.
  intros Hwf Hvar. unfold to_params.
  rewrite filter_none; [done|]. intros val Hval Hsel.
  unfold selected in Hsel. apply andb_prop_elim in Hsel as [Hd Hc].
  apply bool_decide_unpack in Hd. apply negb_prop_elim in Hc.
  assert (param_name val ∉ Dict.keys (working_params sig)) as Hnotin.
  { intros Hin%contains_true. apply Hc. by rewrite Hin. }
  destruct (working_params_lacks sig (param_name val)) as (v & Hv & Hn & Hk & _);
    [done|apply list_elem_of_fmap; by exists val|done|].
  assert (v = val) as ->.
  { pose proof (param_named_elem_of _ _ Hwf Hv) as H1.
    pose proof (param_named_elem_of _ _ Hwf Hval) as H2. congruence. }
  by apply Hd, Hvar.
Qed.

Section class_properties.
Import Scenario.

(** X9.  [super_init_pass_on_kws] is [passes_kws_to] on the initializers:
    decorating a class is decorating its [__init__] with the one receiver
    the decorator resolves ([super_base.__init__] when a base is given).
    Both leave the same world, raise the same exception when they raise,
    and otherwise return, the one the class, the other the initializer. *)
Theorem X9_class_decorator_is_passes_kws_to super_base keep func w :
  let from_func := getattr___init__ func w in
  let to_func := super_init_receiver super_base func w in
  let r := super_init_pass_on_kws__func super_base keep func w in
  let r' := decorate [to_func] keep from_func w in
  r.2 = r'.2 ∧
  (r.1 = Returned func ∧ r'.1 = Returned from_func ∨
   ∃ e, r.1 = Raised e ∧ r'.1 = Raised e).
Proof.
  intros from_func to_func r r'. unfold r, r'.
  rewrite super_init_pass_on_kws__func_eq. cbv zeta.
  fold from_func. fold to_func.
  destruct (signature_of from_func w) as [from_sig|e] eqn:Hfrom.
  - destruct (signature_of to_func w) as [to_sig|e] eqn:Hto.
    + rewrite (decorate_single _ _ _ _ _ _ Hfrom Hto). cbv zeta.
      destruct (Signature_replace _ _) as [sig'|e].
      * destruct (setattr___signature__ _ _ _) as [[[]|e] w'].
        -- split; [done|]. by left.
        -- split; [done|]. right. by exists e.
      * split; [done|]. right. by exists e.
    + rewrite (decorate_raises_receiver _ _ _ _ _ _ Hfrom Hto).
      split; [done|]. right. by exists e.
  - rewrite (decorate_raises_passing _ _ _ _ _ Hfrom).
    split; [done|]. right. by exists e.
Qed.

(** X10.  Without [super_base] the receiver the class decorator resolves
    is the initializer it decorates, so no parameter is ever merged in:
    when the decoration returns, the initializer advertises its own
    parameters, the variadic-keyword parameter dropped, or put last under
    [keep_from_var_kw]; nothing comes from any ancestor. *)
Theorem X10_no_super_base_merges_nothing func keep w from_sig c w' :
  signature_of (getattr___init__ func w) w = Returned from_sig →
  wf_signature from_sig →
  (∀ p, p ∈ parameters from_sig → param_kind p = VAR_KEYWORD →
        param_default p = None) →
  super_init_pass_on_kws__func None keep func w = (Returned c, w') →
  super_init_receiver None func w = getattr___init__ func w ∧
  to_params from_sig from_sig = [] ∧
  ∃ final,
    signature_of (getattr___init__ func w) w' = Returned final ∧
    Some <$> parameters final
    = (Some <$> Dict.values (working_params from_sig))
      ++ (if keep then [popped_var_kw from_sig] else []).
Proof.
  intros Hfrom Hwf Hvar.
  pose proof (to_params_self _ Hwf Hvar) as Hnone.
  rewrite super_init_pass_on_kws__func_eq. cbv zeta.
  assert (super_init_receiver None func w = getattr___init__ func w) as -> by done.
  rewrite Hfrom.
  destruct (Signature_replace _ _) as [final|e] eqn:Hrep; [|done].
  destruct (setattr___signature__ _ _ _) as [[[]|e] w''] eqn:Hset; [|done].
  intros [= <- <-]. split_and!; [done..|]. exists final.
  apply setattr___signature___Returned in Hset as (_ & _ & _ & _ & _ & _ & _ & ->).
  split; [done|].
  apply Signature_replace_Returned in Hrep as (-> & _ & _).
  unfold merged_mapping. rewrite Hnone. unfold Dict.update. simpl.
  destruct keep; [|by rewrite values_widen, app_nil_r].
  rewrite setitem_absent.
  - unfold Dict.values at 1. rewrite fmap_app. simpl.
    fold (Dict.values (widen (working_params from_sig))).
    by rewrite values_widen.
  - rewrite keys_widen.
    destruct (find_var_kw_key (dict_of_signature from_sig)) as [k|] eqn:Hk;
      [|by intros (? & [=] & _)%list_elem_of_fmap].
    intros (k' & [= <-] & Hin)%list_elem_of_fmap. revert Hin.
    destruct (working_params_var_kw _ _ Hk) as (-> & _).
    apply keys_remove_NoDup. by rewrite keys_dict_of_signature.
Qed.

(** X10 at [class Sub(Base)] with [Sub.__init__(self, x, z=2, **kwargs)]. *)
Lemma X10_no_super_base_merges_nothing_witness :
  let from_sig := sig [pos "self"; pos "x"; dflt "z" 2; var_kw "kwargs"] in
  let r := super_init_pass_on_kws__func None false Sub w_classes in
  signature_of (getattr___init__ Sub w_classes) w_classes = Returned from_sig ∧
  wf_signature from_sig ∧ r.1 = Returned Sub ∧
  ∃ final,
    signature_of (getattr___init__ Sub w_classes) r.2 = Returned final ∧
    Some <$> parameters final
    = Some <$> [pos "self"; pos "x"; dflt "z" 2].
Proof.
  intros from_sig r.
  assert (wf_signature from_sig) as Hwf by solve_wf.
  assert (∀ p, p ∈ parameters from_sig → param_kind p = VAR_KEYWORD →
               param_default p = None) as Hvar.
  { apply (Forall_forall
             (λ p, param_kind p = VAR_KEYWORD → param_default p = None)).
    apply (bool_decide_unpack _). vm_compute. exact I. }
  assert (super_init_pass_on_kws__func None false Sub w_classes
          = (Returned Sub, r.2)) as Hdec by (by vm_compute).
  destruct (X10_no_super_base_merges_nothing Sub false w_classes from_sig Sub r.2
              eq_refl Hwf Hvar Hdec) as (_ & _ & final & Hfinal & Hps).
  do 3 (split; [done|]). exists final. split; [done|].
  rewrite Hps. by vm_compute.
Defined.

End class_properties.

(** ** Worlds whose signatures have no duplicate names *)

Lemma frame_signature_Raised w w' obj e :
  frame w w' → signature_of obj w = Raised e → signature_of obj w' = Raised e.
Proof.
  intros [_ Hf]. destruct obj as [l|]; [|done].
  rewrite !signature_of_FuncRef. specialize (Hf l).
  destruct (functions w !! l) as [[f|[s|]]|], (functions w' !! l) as [[f'|[s'|]]|];
    simpl in Hf; try done; by injection Hf.
Qed.

Lemma signature_of_after_merge_inv psig receiver_func rsig keep w obj s' :
  signature_of receiver_func w = Returned rsig →
  signature_of obj (world_after_merge psig receiver_func rsig keep w) = Returned s' →
  ∃ s, signature_of obj w = Returned s ∧ reclassified s s'.
Proof.
  intros Hr Hs'. destruct (signature_of obj w) as [s|e] eqn:Hs.
  - destruct (signature_of_after_merge psig _ _ keep _ _ _ Hr Hs) as (s'' & Hs'' & Hrel).
    exists s. split; [done|]. congruence.
  - eapply frame_signature_Raised in Hs; [|apply world_after_merge_frame].
    rewrite Hs in Hs'. done.
Qed.

Lemma wf_world_after_merge psig receiver_func rsig keep w :
  wf_world w → signature_of receiver_func w = Returned rsig →
  wf_world (world_after_merge psig receiver_func rsig keep w).
Proof.
  intros Hwf Hr obj s' Hs'.
  destruct (signature_of_after_merge_inv _ _ _ _ _ _ _ Hr Hs') as (s & Hs & Hrel).
  unfold wf_signature. fold (names s'). rewrite (reclassified_names _ _ Hrel).
  by apply (Hwf obj).
Qed.

Lemma wf_world_objects w :
  (∀ l o, functions w !! l = Some o → wf_object o) → wf_world w.
Proof.
  intros Hall [l|] s.
  - rewrite signature_of_FuncRef.
    destruct (functions w !! l) as [[f|[t|]]|] eqn:Hl; try done.
    + intros [= <-]. apply (Hall l _ Hl).
    + intros [= <-]. apply (Hall l _ Hl).
  - intros [= <-]. unfold wf_signature. apply (bool_decide_unpack _). by vm_compute.
Qed.

Lemma wf_world_of fs cs :
  Forall (λ lo, wf_object lo.2) fs → wf_world (Scenario.world_of fs cs).
Proof.
  intros Hall. apply wf_world_objects. intros l o Hl. simpl in Hl.
  apply elem_of_list_to_map_2 in Hl.
  by apply (proj1 (Forall_forall _ _) Hall (l, o)).
Qed.

(** The parameters of the passing signature, the variadic-keyword
    parameter apart, go through every turn of the loop as they are. *)
Lemma passes_kws_to_loop_keeps receiver_funcs keep psig w final w' p :
  wf_world w → wf_signature psig →
  passes_kws_to_loop psig receiver_funcs keep w = (Returned final, w') →
  p ∈ parameters psig → param_kind p ≠ VAR_KEYWORD →
  param_named (param_name p) final = Some p.
Proof.
  revert psig w. induction receiver_funcs as [|r rs IH]; intros psig w Hw Hwf.
  - intros [= <- <-] Hp _. by apply param_named_elem_of.
  - destruct (signature_of r w) as [rsig|e] eqn:Hr.
    + rewrite (passes_kws_to_loop_cons _ _ _ _ _ _ Hr).
      destruct (Signature_replace _ _) as [sig1|e] eqn:Hrep; [|done].
      intros Hloop Hp Hkind.
      pose proof (Signature_replace_Returned _ _ _ Hrep) as (_ & _ & Hwf1).
      assert (param_named (param_name p) sig1 = Some p) as Hp1.
      { eapply rebuilt_param_named; [exact Hrep|].
        apply merge_get_passing; [done|by apply (Hw r)|done|by left]. }
      apply (IH sig1 _ (wf_world_after_merge _ _ _ _ _ Hw Hr) Hwf1 Hloop);
        [|done].
      by apply param_named_Some in Hp1 as [? _].
    + by rewrite (passes_kws_to_loop_raises _ _ _ _ _ _ Hr).
Qed.

Section persistence.
Import Scenario.

(** X11.  The passing callable's own parameters always win: whatever the
    receivers and the flag, when the decoration returns, every parameter
    the passing callable had, its variadic-keyword parameter apart, is
    still what it advertises under that name, with its kind and its
    default, so that no receiver parameter of that name is merged. *)
Theorem X11_own_parameters_win receiver_funcs keep passing_func w psig c w' p :
  wf_world w →
  signature_of passing_func w = Returned psig →
  decorate receiver_funcs keep passing_func w = (Returned c, w') →
  p ∈ parameters psig → param_kind p ≠ VAR_KEYWORD →
  ∃ final, signature_of passing_func w' = Returned final ∧
           param_named (param_name p) final = Some p ∧
           p ∈ parameters final.
Proof.
  intros Hw Hp (psig' & final & w2 & Hp' & Hloop & Hset & ->)%decorate_Returned
    Hin Hkind.
  rewrite Hp in Hp'. injection Hp' as <-.
  apply setattr___signature___Returned in Hset as (_ & _ & _ & _ & _ & _ & _ & Hfinal).
  exists final. split; [done|].
  pose proof (passes_kws_to_loop_keeps _ _ _ _ _ _ _ Hw (Hw _ _ Hp) Hloop Hin Hkind)
    as Hnamed.
  split; [done|]. by apply param_named_Some in Hnamed as [? _].
Qed.

(** X11 at [f(a, **kwargs)] with [g(b=1)] then [h(kwargs=3, b=9, c=4)]. *)
Lemma X11_own_parameters_win_witness :
  let r := decorate [g; h] false f w_chain in
  wf_world w_chain ∧
  signature_of f w_chain = Returned (sig [pos "a"; var_kw "kwargs"]) ∧
  r.1 = Returned f ∧
  ∃ final, signature_of f r.2 = Returned final ∧
           param_named "a" final = Some (pos "a") ∧
           pos "a" ∈ parameters final.
Proof.
  intros r.
  assert (wf_world w_chain) as Hw.
  { apply wf_world_of. apply (bool_decide_unpack _). by vm_compute. }
  assert (decorate [g; h] false f w_chain = (Returned f, r.2)) as Hdec
    by (by vm_compute).
  do 3 (split; [done|]).
  apply (X11_own_parameters_win [g; h] false f w_chain
           (sig [pos "a"; var_kw "kwargs"]) f r.2 (pos "a") Hw eq_refl Hdec);
    [left|done].
Defined.

End persistence.

(** ** Storing a signature commutes with the merges of other callables *)

Lemma world_eq w1 w2 :
  functions w1 = functions w2 → classes w1 = classes w2 → log w1 = log w2 →
  w1 = w2.
Proof. destruct w1, w2. simpl. by intros -> -> ->. Qed.

Lemma setattr___signature___with_signature l f s w :
  functions w !! l = Some (Function f) →
  setattr___signature__ (FuncRef l) s w = (Returned tt, with_signature l s w).
Proof.
  intros Hl. unfold setattr___signature__, set_functions. rewrite Hl.
  f_equal. apply world_eq; [|done..]. simpl. apply map_eq. intros l'.
  destruct (decide (l = l')) as [<-|Hne].
  - by rewrite lookup_insert_eq, lookup_alter_eq, Hl.
  - by rewrite lookup_insert_ne, lookup_alter_ne.
Qed.

Lemma signature_of_with_signature_ne l s w obj :
  obj ≠ FuncRef l → signature_of obj (with_signature l s w) = signature_of obj w.
Proof.
  intros Hne. destruct obj as [l'|]; [|done].
  rewrite !signature_of_FuncRef. simpl.
  rewrite lookup_alter_ne; [done|]. congruence.
Qed.

Lemma signature_of_with_signature_eq l f s w :
  functions w !! l = Some (Function f) →
  signature_of (FuncRef l) (with_signature l s w) = Returned s.
Proof.
  intros Hl. rewrite signature_of_FuncRef. simpl.
  by rewrite lookup_alter_eq, Hl.
Qed.

Lemma with_signature_twice l s1 s2 w :
  with_signature l s2 (with_signature l s1 w) = with_signature l s2 w.
Proof.
  apply world_eq; [|done..]. simpl. apply map_eq. intros l'.
  destruct (decide (l = l')) as [<-|Hne].
  - rewrite !lookup_alter_eq. by destruct (functions w !! l) as [[f|?]|].
  - by rewrite !lookup_alter_ne.
Qed.

Lemma store_mutated_with_signature l s w receiver_func ps :
  receiver_func ≠ FuncRef l →
  (store_mutated receiver_func ps (with_signature l s w)).2
  = with_signature l s (store_mutated receiver_func ps w).2.
Proof.
  intros Hne. unfold store_mutated. destruct receiver_func as [lr|]; [|done].
  assert (l ≠ lr) as Hl by congruence. simpl.
  rewrite lookup_alter_ne by done.
  destruct (functions w !! lr) as [[fr|?]|]; try done.
  destruct (__signature__ fr); [|done].
  apply world_eq; [|done..]. simpl. by rewrite alter_insert_ne.
Qed.

Lemma world_after_merge_with_signature l s w psig receiver_func rsig keep :
  receiver_func ≠ FuncRef l →
  world_after_merge psig receiver_func rsig keep (with_signature l s w)
  = with_signature l s (world_after_merge psig receiver_func rsig keep w).
Proof.
  intros Hne. unfold world_after_merge.
  rewrite store_mutated_with_signature by done.
  by destruct (keep && _).
Qed.

Lemma passes_kws_to_loop_with_signature l s receiver_funcs keep psig w :
  FuncRef l ∉ receiver_funcs →
  passes_kws_to_loop psig receiver_funcs keep (with_signature l s w)
  = ((passes_kws_to_loop psig receiver_funcs keep w).1,
     with_signature l s (passes_kws_to_loop psig receiver_funcs keep w).2).
Proof.
  revert psig w. induction receiver_funcs as [|r rs IH]; intros psig w Hnotin.
  - done.
  - apply not_elem_of_cons in Hnotin as [Hne Hnotin].
    assert (r ≠ FuncRef l) as Hr' by congruence.
    destruct (signature_of r w) as [rsig|e] eqn:Hr.
    + assert (signature_of r (with_signature l s w) = Returned rsig) as Hrs
        by (by rewrite signature_of_with_signature_ne).
      rewrite (passes_kws_to_loop_cons _ _ _ _ _ _ Hr),
        (passes_kws_to_loop_cons _ _ _ _ _ _ Hrs).
      rewrite world_after_merge_with_signature by done.
      destruct (Signature_replace _ _) as [sig1|e]; [|done].
      by apply IH.
    + assert (signature_of r (with_signature l s w) = Raised e) as Hrs
        by (by rewrite signature_of_with_signature_ne).
      by rewrite (passes_kws_to_loop_raises _ _ _ _ _ _ Hr),
        (passes_kws_to_loop_raises _ _ _ _ _ _ Hrs).
Qed.

Lemma decorate_unfold receiver_funcs keep passing_func w psig :
  signature_of passing_func w = Returned psig →
  decorate receiver_funcs keep passing_func w =
  match passes_kws_to_loop psig receiver_funcs keep w with
  | (Returned final, w2) =>
      match setattr___signature__ passing_func final w2 with
      | (Returned _, w3) => (Returned passing_func, w3)
      | (Raised e, w3) => (Raised e, w3)
      end
  | (Raised e, w2) => (Raised e, w2)
  end.
Proof.
  intros Hp. rewrite decorate_eq. unfold passes_kws_to__func.
  unfold mbind at 1 2 3, Py_bind at 1 2 3. by rewrite inspect_signature_eq, Hp.
Qed.

Lemma is_function_signature_of obj w :
  is_function obj w → ∃ s, signature_of obj w = Returned s.
Proof.
  intros (l & f & -> & Hl). rewrite signature_of_FuncRef, Hl. by eexists.
Qed.

Lemma then_decorate_eq receiver_funcs keep (m : Py callable) w :
  then_decorate receiver_funcs keep m w =
  match m w with
  | (Returned passing_func, w1) => decorate receiver_funcs keep passing_func w1
  | (Raised e, w1) => (Raised e, w1)
  end.
Proof. done. Qed.

Section stacking.
Import Scenario.

(** X12.  Giving [passes_kws_to] the receivers at once is stacking one
    decorator per receiver: for a Python function that is not among the
    later receivers, decorating with [A] and the rest gives the outcome of
    decorating with [A] and then decorating the result with the rest; the
    worlds are the same too, except that when a later merge raises, the
    stacked decorators have already stored the signature the first one
    built, while the single decorator has stored nothing. *)
Theorem X12_at_once_is_stacked A receiver_funcs keep l w :
  is_function (FuncRef l) w → FuncRef l ∉ receiver_funcs →
  let r := decorate (A :: receiver_funcs) keep (FuncRef l) w in
  let r' := then_decorate receiver_funcs keep (decorate [A] keep (FuncRef l)) w in
  r.1 = r'.1 ∧
  (r.2 = r'.2 ∨
   ∃ e sig1, r.1 = Raised e ∧ r'.2 = with_signature l sig1 r.2).
Proof.
  intros Hfun Hnotin r r'. unfold r, r'. rewrite then_decorate_eq.
  destruct (is_function_signature_of _ _ Hfun) as [psig Hp].
  destruct (signature_of A w) as [asig|e] eqn:Ha.
  - rewrite (decorate_single _ _ _ _ _ _ Hp Ha), (decorate_unfold _ _ _ _ _ Hp).
    rewrite (passes_kws_to_loop_cons _ _ _ _ _ _ Ha). cbv zeta.
    destruct (Signature_replace _ _) as [sig1|e]; [|by split; [|left]].
    set (w1 := world_after_merge psig A asig keep w).
    assert (is_function (FuncRef l) w1) as (? & f1 & [= <-] & Hl1).
    { eapply frame_is_function; [apply world_after_merge_frame|done]. }
    rewrite (setattr___signature___with_signature _ _ _ _ Hl1).
    rewrite (decorate_unfold _ _ _ _ sig1)
      by (by eapply signature_of_with_signature_eq).
    rewrite passes_kws_to_loop_with_signature by done.
    pose proof (framed_passes_kws_to_loop sig1 receiver_funcs keep w1) as Hframe.
    destruct (passes_kws_to_loop sig1 receiver_funcs keep w1) as [[final|e] w2];
      cbn [fst snd] in *.
    + assert (is_function (FuncRef l) w2) as (? & f2 & [= <-] & Hl2).
      { eapply frame_is_function; [exact Hframe|]. by exists l, f1. }
      assert (functions (with_signature l sig1 w2) !! l
              = Some (Function (set___signature__ sig1 f2))) as Hl2'.
      { simpl. by rewrite lookup_alter_eq, Hl2. }
      rewrite (setattr___signature___with_signature _ _ _ _ Hl2),
        (setattr___signature___with_signature _ _ _ _ Hl2').
      simpl. split; [done|]. left. by rewrite with_signature_twice.
    + split; [done|]. right. by exists e, sig1.
  - rewrite (decorate_unfold _ _ _ _ _ Hp), (decorate_unfold _ _ _ _ _ Hp).
    rewrite !(passes_kws_to_loop_raises _ _ _ _ _ _ Ha). split; [done|by left].
Qed.

(** X12 at [f(a, **kwargs)] with [g(b=1)] and [h(kwargs=3, b=9, c=4)]. *)
Lemma X12_at_once_is_stacked_witness :
  let r := decorate [g; h] false f w_chain in
  let r' := then_decorate [h] false (decorate [g] false f) w_chain in
  is_function f w_chain ∧ (f ∉ [h]) ∧
  r.1 = Returned f ∧ r'.1 = Returned f ∧
  advertised f r'.2 = Some "(a, *, b=1, kwargs=3, c=4)".
Proof.
  intros r r'.
  assert (is_function f w_chain) as Hfun by (eexists 1, _; by split).
  assert (f ∉ [h]) as Hnotin.
  { apply (bool_decide_unpack _). by vm_compute. }
  destruct (X12_at_once_is_stacked g [h] false 1 w_chain Hfun Hnotin)
    as [Hout _].
  fold r r' in Hout.
  assert (r.1 = Returned f) as Hr by (by vm_compute).
  split; [done|]. split; [done|]. split; [done|].
  split; [by etrans; [symmetry; exact Hout|]|by vm_compute].
Defined.

End stacking.

(** ** Merging the same receiver again *)

Lemma reclassified_elem_of_inv s s' p' :
  reclassified s s' → p' ∈ parameters s' →
  ∃ p, p ∈ parameters s ∧ (p' = p ∨ p' = to_keyword_only p).
Proof.
  unfold reclassified. induction 1 as [|q q' ps ps' Hq _ IH].
  - by intros ?%elem_of_nil.
  - intros [->|Hp]%elem_of_cons.
    + exists q. split; [left|done].
    + destruct (IH Hp) as (p & Hp' & Hrel). exists p. split; [by right|done].
Qed.

Lemma names_values_working_params sig :
  param_name <$> Dict.values (working_params sig) = Dict.keys (working_params sig).
Proof.
  unfold Dict.values, Dict.keys. rewrite <-list_fmap_compose.
  apply list_fmap_ext. intros i [k p] Hi. simpl.
  apply list_elem_of_lookup_2 in Hi.
  by apply elem_of_working_params in Hi as [_ ->].
Qed.

(** Nothing is left to reclassify: storing the parameters a callable
    already shows changes nothing. *)
Lemma store_mutated_same receiver_func s w :
  signature_of receiver_func w = Returned s →
  (store_mutated receiver_func (parameters s) w).2 = w.
Proof.
  intros Hs. unfold store_mutated. destruct receiver_func as [l|]; [|done].
  rewrite signature_of_FuncRef in Hs.
  destruct (functions w !! l) as [[f|?]|] eqn:Hl; try done.
  destruct (__signature__ f) as [s0|] eqn:Hs0; [|done].
  injection Hs as ->. apply world_eq; [|done..]. simpl.
  apply insert_id. rewrite Hl. do 2 f_equal.
  destruct f as [n c sg]. simpl in *. subst sg. unfold set___signature__. simpl.
  by destruct s.
Qed.

(** The signature a merge without [keep_from_var_kw] rebuilds: the working
    parameters, then the selected ones. *)
Lemma rebuilt_drop_parameters psig rsig sig1 :
  wf_signature rsig →
  Signature_replace psig (Dict.values (merged_mapping psig rsig false))
    = Returned sig1 →
  parameters sig1
  = Dict.values (working_params psig) ++ Dict.values (to_params psig rsig).
Proof.
  intros Hwf (Hvals & _ & _)%Signature_replace_Returned.
  rewrite merged_mapping_drop, values_widen in Hvals by done.
  apply (inj (fmap Some)) in Hvals. rewrite Hvals.
  unfold Dict.values. by rewrite fmap_app.
Qed.

(** Merging once more a receiver that has just been merged rebuilds the
    same signature and reclassifies nothing. *)
Lemma merge_again psig rsig rsig' sig1 :
  wf_signature psig → wf_signature rsig →
  (∀ p q, p ∈ parameters psig → q ∈ parameters psig →
          param_kind p = VAR_KEYWORD → param_kind q = VAR_KEYWORD → p = q) →
  (∀ val, val ∈ parameters rsig → param_default val ≠ None →
          param_kind val ≠ VAR_KEYWORD) →
  reclassified rsig rsig' →
  Signature_replace psig (Dict.values (merged_mapping psig rsig false))
    = Returned sig1 →
  Signature_replace sig1 (Dict.values (merged_mapping sig1 rsig' false))
    = Returned sig1 ∧
  mutated_params sig1 rsig' = parameters rsig'.
Proof.
  intros Hwfp Hwfr Hone Hdef Hrel Hrep.
  pose proof (rebuilt_drop_parameters _ _ _ Hwfr Hrep) as Hps.
  assert (has_var_kw sig1 = false) as Hno.
  { apply has_var_kw_false. intros p Hp Hkind. rewrite Hps in Hp.
    apply elem_of_app in Hp as [Hp|Hp].
    - apply list_elem_of_fmap in Hp as ([k p'] & -> & Hin). simpl in Hkind.
      pose proof Hin as [Hpin ->]%elem_of_working_params.
      assert (param_name p' ∈ Dict.keys (working_params psig)) as Hkey
        by (apply list_elem_of_fmap; by exists (param_name p', p')).
      destruct (find_var_kw_key (dict_of_signature psig)) as [k|] eqn:Hk.
      + destruct (working_params_var_kw _ _ Hk) as (Hw & q & _ & Hq & Hqn).
        apply find_var_kw_key_Some in Hk
          as (q' & [Hq'in ->]%elem_of_dict_of_signature & Hq'k).
        rewrite (Hone p' q' Hpin Hq'in Hkind Hq'k) in Hkey.
        revert Hkey. rewrite Hw. apply keys_remove_NoDup.
        by rewrite keys_dict_of_signature.
      + apply find_var_kw_key_has_var_kw in Hk.
        by apply (proj1 (has_var_kw_false _) Hk p').
    - apply elem_of_values_to_params in Hp as (val & -> & Hval & Hd & _).
      apply (Hdef val Hval Hd).
      pose proof (to_keyword_only_is_var_kw val) as Hv. unfold is_var_kw in Hv.
      rewrite bool_decide_eq_true_2 in Hv by done.
      symmetry in Hv. by apply bool_decide_eq_true in Hv. }
  destruct (working_params_no_var_kw _ Hno) as [Hw1 _].
  assert (∀ val', val' ∈ parameters rsig' →
                  selected (working_params sig1) val' = false) as Hsel.
  { intros val' Hval'. apply not_true_is_false. intros Hsel.
    unfold selected in Hsel. apply andb_true_iff in Hsel as [Hd Hc].
    apply bool_decide_eq_true in Hd. apply negb_true_iff, contains_false in Hc.
    apply Hc. rewrite Hw1, keys_dict_of_signature.
    destruct (reclassified_elem_of_inv _ _ _ Hrel Hval') as (val & Hval & Hvv).
    assert (param_name val' = param_name val ∧
            param_default val' = param_default val) as [-> Hd'].
    { destruct Hvv as [-> | ->]; [done|].
      by rewrite to_keyword_only_name, to_keyword_only_default. }
    rewrite Hd' in Hd. unfold names. rewrite Hps, fmap_app.
    rewrite names_values_working_params, names_values_to_params.
    apply elem_of_app.
    destruct (decide (param_name val ∈ Dict.keys (working_params psig)))
      as [?|Hnotin]; [by left|right].
    apply list_elem_of_fmap. exists (param_name val, to_keyword_only val).
    split; [done|]. apply elem_of_to_params; [done|].
    unfold selected. rewrite bool_decide_eq_true_2 by done.
    apply contains_false in Hnotin. by rewrite Hnotin. }
  split.
  - assert (to_params sig1 rsig' = []) as Hnone.
    { unfold to_params. rewrite filter_none; [done|].
      intros val' Hval' Hs. apply Is_true_eq_true in Hs.
      by rewrite (Hsel val' Hval') in Hs. }
    unfold merged_mapping. rewrite Hnone, Hw1. unfold Dict.update. simpl.
    rewrite values_widen, values_dict_of_signature.
    apply (Signature_replace_valid _ _ _ Hrep).
  - unfold mutated_params. rewrite <-(list_fmap_id (parameters rsig')) at 2.
    apply list_fmap_ext. intros i val' Hi.
    by rewrite (Hsel val') by (by eapply list_elem_of_lookup_2).
Qed.

Section repetition.
Import Scenario.

(** X13.  In the default mode a receiver merged twice counts once: when
    the decoration with a receiver returns, so does the decoration with
    that receiver given twice, with the same world, hence the same
    advertised signature, nothing being merged or reclassified the second
    time.  (The passing signature has at most one variadic-keyword
    parameter and no receiver parameter with a default is one, as in every
    signature Python builds.) *)
Theorem X13_same_receiver_twice receiver_func passing_func w psig rsig c w' :
  signature_of passing_func w = Returned psig →
  signature_of receiver_func w = Returned rsig →
  wf_signature psig → wf_signature rsig →
  (∀ p q, p ∈ parameters psig → q ∈ parameters psig →
          param_kind p = VAR_KEYWORD → param_kind q = VAR_KEYWORD → p = q) →
  (∀ val, val ∈ parameters rsig → param_default val ≠ None →
          param_kind val ≠ VAR_KEYWORD) →
  decorate [receiver_func] false passing_func w = (Returned c, w') →
  decorate [receiver_func; receiver_func] false passing_func w = (Returned c, w').
Proof.
  intros Hp Hr Hwfp Hwfr Hone Hdef.
  rewrite (decorate_single _ _ _ _ _ _ Hp Hr), (decorate_unfold _ _ _ _ _ Hp).
  rewrite (passes_kws_to_loop_cons _ _ _ _ _ _ Hr). cbv zeta.
  destruct (Signature_replace _ _) as [sig1|e] eqn:Hrep; [|done].
  destruct (signature_of_after_merge psig _ _ false _ _ _ Hr Hr)
    as (rsig' & Hr' & Hrel).
  rewrite (passes_kws_to_loop_cons _ _ _ _ _ _ Hr').
  destruct (merge_again _ _ _ _ Hwfp Hwfr Hone Hdef Hrel Hrep) as [-> Hmut].
  cbn [passes_kws_to_loop mret Py_ret].
  assert (world_after_merge sig1 receiver_func rsig' false
            (world_after_merge psig receiver_func rsig false w)
          = world_after_merge psig receiver_func rsig false w) as ->.
  { unfold world_after_merge at 1. cbn [andb]. rewrite Hmut.
    by apply store_mutated_same. }
  by destruct (setattr___signature__ _ _ _) as [[[]|?] ?].
Qed.

(** X13 at [f(a, **kwargs)] and [g(b=1)]. *)
Lemma X13_same_receiver_twice_witness :
  let psig := sig [pos "a"; var_kw "kwargs"] in
  let rsig := sig [dflt "b" 1] in
  let r := decorate [g] false f w_disjoint in
  signature_of f w_disjoint = Returned psig ∧
  signature_of g w_disjoint = Returned rsig ∧
  wf_signature psig ∧ wf_signature rsig ∧ r.1 = Returned f ∧
  decorate [g; g] false f w_disjoint = (Returned f, r.2) ∧
  advertised f r.2 = Some "(a, *, b=1)".
Proof.
  intros psig rsig r.
  assert (wf_signature psig) as Hwfp by solve_wf.
  assert (wf_signature rsig) as Hwfr by solve_wf.
  assert (∀ p q, p ∈ parameters psig → q ∈ parameters psig →
                 param_kind p = VAR_KEYWORD → param_kind q = VAR_KEYWORD →
                 p = q) as Hone.
  { intros p q [->|[->|[]%elem_of_nil]%elem_of_cons]%elem_of_cons
                [->|[->|[]%elem_of_nil]%elem_of_cons]%elem_of_cons; done. }
  assert (∀ val, val ∈ parameters rsig → param_default val ≠ None →
                 param_kind val ≠ VAR_KEYWORD) as Hdef.
  { intros val [->|[]%elem_of_nil]%elem_of_cons _. done. }
  assert (decorate [g] false f w_disjoint = (Returned f, r.2)) as Hdec
    by (by vm_compute).
  pose proof (X13_same_receiver_twice g f w_disjoint psig rsig f r.2
                eq_refl eq_refl Hwfp Hwfr Hone Hdef Hdec) as Htwice.
  do 5 (split; [done|]). split; [exact Htwice|by vm_compute].
Defined.

End repetition.

Lemma frame_fmap w w' :
  classes w' = classes w →
  forget_signature <$> functions w' = forget_signature <$> functions w →
  frame w w'.
Proof.
  intros Hc Hf. split; [done|]. intros l. by rewrite <-!lookup_fmap, Hf.
Qed.

Section demonstration.

(** X14.  The demonstration of the module, run: the three decorations
    succeed without a warning; [SubClass0], decorated with
    [passes_kws_to(BaseClass.__init__)], and [SubClass2], decorated with
    [super_init_pass_on_kws(super_base=BaseClass)], advertise the same
    signature, with the keywords [kwarg0] and [kwarg1] of [BaseClass];
    [SubClass1], decorated with the bare [super_init_pass_on_kws], only
    loses [**kwargs]; and the signature of [SubClass2] is never printed,
    the second and third lines being the one of [SubClass1]. *)
Theorem X14_demonstration :
  let r := Demo.main Demo.w_main in
  r.1 = Returned
          ["(self, arg0, arg1, arg2, *args, kwarg2=None, kwarg0=None, kwarg1=None)";
           "(self, arg0, arg1, arg2, *args, kwarg2=None)";
           "(self, arg0, arg1, arg2, *args, kwarg2=None)"] ∧
  log r.2 = [] ∧
  (Demo.printed_signature Demo.SubClass2 r.2).1
    = (Demo.printed_signature Demo.SubClass0 r.2).1 ∧
  (Demo.printed_signature Demo.BaseClass r.2).1
    = Returned "(self, arg0, *args, kwarg0=None, kwarg1=None, **kwargs)" ∧
  frame Demo.w_main r.2.
Proof.
  intros r. split_and!; try by vm_compute.
  apply frame_fmap; by vm_compute.
Qed.

End demonstration.

(** ** What a decoration does to the other callables *)

Lemma world_after_merge_lookup_ne psig receiver_func rsig keep w l :
  receiver_func ≠ FuncRef l →
  functions (world_after_merge psig receiver_func rsig keep w) !! l
  = functions w !! l.
Proof.
  intros Hne. rewrite world_after_merge_functions. unfold store_mutated.
  destruct receiver_func as [lr|]; [|done].
  destruct (functions w !! lr) as [[fr|?]|]; try done.
  destruct (__signature__ fr); [|done]. simpl.
  rewrite lookup_insert_ne; [done|congruence].
Qed.

Lemma passes_kws_to_loop_lookup_ne receiver_funcs keep psig w l :
  FuncRef l ∉ receiver_funcs →
  functions (passes_kws_to_loop psig receiver_funcs keep w).2 !! l
  = functions w !! l.
Proof.
  revert psig w. induction receiver_funcs as [|r rs IH]; intros psig w Hnotin.
  - done.
  - apply not_elem_of_cons in Hnotin as [Hne Hnotin].
    destruct (signature_of r w) as [rsig|e] eqn:Hr.
    + rewrite (passes_kws_to_loop_cons _ _ _ _ _ _ Hr).
      destruct (Signature_replace _ _) as [sig1|e].
      * rewrite IH by done. by apply world_after_merge_lookup_ne.
      * by apply world_after_merge_lookup_ne.
    + by rewrite (passes_kws_to_loop_raises _ _ _ _ _ _ Hr).
Qed.

Lemma reclassified_trans s1 s2 s3 :
  reclassified s1 s2 → reclassified s2 s3 → reclassified s1 s3.
Proof.
  unfold reclassified. intros H12. revert s3.
  generalize (parameters s2) H12. clear H12. intros ps2 H12.
  induction H12 as [|p p' ps ps' Hp _ IH]; intros s3 H23.
  - by apply Forall2_nil_inv_l in H23 as ->.
  - apply Forall2_cons_inv_l in H23 as (p'' & ps'' & Hp' & H23 & ->).
    constructor.
    + destruct Hp as [-> | ->], Hp' as [-> | ->]; auto.
      right. apply to_keyword_only_idemp.
    + by apply (IH {| parameters := ps''; return_annotation := None |}).
Qed.

Lemma reclassified_defaults s s' :
  reclassified s s' →
  param_default <$> parameters s' = param_default <$> parameters s.
Proof.
  unfold reclassified. induction 1 as [|p p' ps ps' Hp _ IH]; [done|].
  rewrite !fmap_cons, IH. f_equal.
  destruct Hp as [-> | ->]; [done|apply to_keyword_only_default].
Qed.

Lemma passes_kws_to_loop_reclassified receiver_funcs keep psig w obj s :
  signature_of obj w = Returned s →
  ∃ s', signature_of obj (passes_kws_to_loop psig receiver_funcs keep w).2
        = Returned s' ∧ reclassified s s'.
Proof.
  revert psig w s. induction receiver_funcs as [|r rs IH]; intros psig w s Hs.
  - exists s. split; [done|apply reclassified_refl].
  - destruct (signature_of r w) as [rsig|e] eqn:Hr.
    + rewrite (passes_kws_to_loop_cons _ _ _ _ _ _ Hr).
      destruct (signature_of_after_merge psig _ _ keep _ _ _ Hr Hs)
        as (s1 & Hs1 & Hrel1).
      destruct (Signature_replace _ _) as [sig1|e].
      * destruct (IH sig1 _ _ Hs1) as (s' & Hs' & Hrel').
        exists s'. split; [done|]. by eapply reclassified_trans.
      * by exists s1.
    + rewrite (passes_kws_to_loop_raises _ _ _ _ _ _ Hr).
      exists s. split; [done|apply reclassified_refl].
Qed.

Section other_callables.
Import Scenario.

(** X15.  A decoration that raises leaves the passing callable as it was:
    the signature is assigned only once every receiver has been merged, so
    when a receiver cannot be introspected, or a rebuilt signature is not
    valid, a function that is not among the receivers keeps its object,
    hence the signature it advertised. *)
Theorem X15_failed_decoration_stores_nothing receiver_funcs keep l w e :
  FuncRef l ∉ receiver_funcs →
  (decorate receiver_funcs keep (FuncRef l) w).1 = Raised e →
  functions (decorate receiver_funcs keep (FuncRef l) w).2 !! l
    = functions w !! l ∧
  signature_of (FuncRef l) (decorate receiver_funcs keep (FuncRef l) w).2
    = signature_of (FuncRef l) w.
Proof.
  intros Hnotin Hraised.
  assert (functions (decorate receiver_funcs keep (FuncRef l) w).2 !! l
          = functions w !! l) as Hl; [|split; [done|]].
  - destruct (signature_of (FuncRef l) w) as [psig|e'] eqn:Hp.
    + rewrite (decorate_unfold _ _ _ _ _ Hp) in *.
      pose proof (passes_kws_to_loop_lookup_ne _ keep psig w l Hnotin) as Hloop.
      destruct (passes_kws_to_loop _ _ _ _) as [[final|e''] w2]; [|done].
      cbn [snd] in Hloop.
      destruct (setattr___signature___cases (FuncRef l) final w2)
        as [[w3 Hset]| ->]; [|done].
      rewrite Hset in Hraised. done.
    + by rewrite (decorate_raises_passing _ _ _ _ _ Hp).
  - by rewrite !signature_of_FuncRef, Hl.
Qed.

(** X15 at [f(a, **kwargs)] with the builtins [len] then [max]. *)
Lemma X15_failed_decoration_stores_nothing_witness :
  let r := decorate [len; max] false f w_builtins in
  (f ∉ [len; max]) ∧ r.1 = Raised ValueError ∧
  signature_of f r.2 = signature_of f w_builtins ∧
  advertised f r.2 = Some "(a, **kwargs)".
Proof.
  intros r.
  assert (f ∉ [len; max]) as Hnotin.
  { apply (bool_decide_unpack _). by vm_compute. }
  assert (r.1 = Raised ValueError) as Hraised by (by vm_compute).
  destruct (X15_failed_decoration_stores_nothing [len; max] false 1 w_builtins
              ValueError Hnotin Hraised) as [_ Hsig].
  split; [done|]. split; [done|]. split; [exact Hsig|by vm_compute].
Defined.

(** X16.  Whatever its outcome, a decoration changes of any other callable
    at most the kinds of parameters: a callable that showed a signature
    still shows one with the same names and the same defaults in the same
    order, each parameter being as it was or reclassified by
    [to_keyword_only]. *)
Theorem X16_others_only_reclassified receiver_funcs keep passing_func w obj s :
  obj ≠ passing_func →
  signature_of obj w = Returned s →
  ∃ s', signature_of obj (decorate receiver_funcs keep passing_func w).2
        = Returned s' ∧
        reclassified s s' ∧ names s' = names s ∧
        param_default <$> parameters s' = param_default <$> parameters s.
Proof.
  intros Hne Hs.
  assert (∃ s', signature_of obj (decorate receiver_funcs keep passing_func w).2
                = Returned s' ∧ reclassified s s') as (s' & Hs' & Hrel).
  { destruct (signature_of passing_func w) as [psig|e] eqn:Hp.
    - rewrite (decorate_unfold _ _ _ _ _ Hp).
      destruct (passes_kws_to_loop_reclassified receiver_funcs keep psig w obj s Hs)
        as (s' & Hs' & Hrel).
      destruct (passes_kws_to_loop _ _ _ _) as [[final|e] w2]; [|by exists s'].
      cbn [snd] in Hs'. exists s'. split; [|done].
      destruct (setattr___signature___cases passing_func final w2)
        as [[w3 Hset]| ->]; [|done].
      rewrite Hset. cbn [snd].
      apply setattr___signature___Returned in Hset
        as (l & f0 & -> & Hl & Hfun & _).
      destruct obj as [l'|]; [|done].
      rewrite signature_of_FuncRef in *. rewrite Hfun.
      rewrite lookup_insert_ne; [done|congruence].
    - rewrite (decorate_raises_passing _ _ _ _ _ Hp).
      exists s. split; [done|apply reclassified_refl]. }
  exists s'. split_and!; [done..| |].
  - by apply reclassified_names.
  - by apply reclassified_defaults.
Qed.

(** X16 at [f(x, **kwargs)] and a [g(a, b=1)] that stores its signature. *)
Lemma X16_others_only_reclassified_witness :
  let r := decorate [g] false f Stored.w_stored in
  g ≠ f ∧ signature_of g Stored.w_stored = Returned Stored.g_sig ∧
  ∃ s', signature_of g r.2 = Returned s' ∧
        names s' = ["a"; "b"] ∧
        param_default <$> parameters s' = [None; Some (PyInt 1)] ∧
        advertised g r.2 = Some "(a, *, b=1)".
Proof.
  intros r.
  destruct (X16_others_only_reclassified [g] false f Stored.w_stored g
              Stored.g_sig ltac:(done) eq_refl) as (s' & Hs' & _ & Hn & Hd).
  split; [done|]. split; [done|]. exists s'.
  split; [exact Hs'|]. split; [exact Hn|]. split; [exact Hd|by vm_compute].
Defined.

End other_callables.

(** ** The warnings of a decoration *)






Section warnings.
Import Scenario.



End warnings.
